(** * krelez: status proxy and stream players

    A shallow embedding of the TypeScript sources of the chipend front end:
    the three [GET] status routes and the two React players
    ([chiptuneplayer.tsx], pull transport; [vaporplayer.tsx], push
    transport), together with the properties of their metadata
    synchronisation and playback state. *)

From Stdlib Require Import String Ascii List ZArith QArith Bool Lia.
From Stdlib Require Import DecimalString.
Import ListNotations.
Open Scope string_scope.
Open Scope Z_scope.

#[local] Set Warnings "-register-all".

(** ** JavaScript values as the handlers see them *)

Module JS.

(** What [response.json()] and [JSON.parse] produce.  Number literals are
    kept as integers: the handlers only test them for truthiness and
    print them. *)
Inductive json : Type :=
| JNull
| JBool (b : bool)
| JNum (n : Z)
| JStr (s : string)
| JArr (items : list json)
| JObj (fields : list (string * json)).

(** A JavaScript value: [None] is [undefined]. *)
Definition value := option json.

(** Completion of a piece of JavaScript: a result or a thrown exception. *)
Inductive completion (A : Type) : Type :=
| Normal (a : A)
| Throw (e : string).
Arguments Normal {A} a.
Arguments Throw {A} e.

Definition bind {A B} (c : completion A) (k : A -> completion B)
  : completion B :=
  match c with
  | Normal a => k a
  | Throw e => Throw e
  end.

Notation "x <- c ;; k" := (bind c (fun x => k))
  (at level 61, c at next level, right associativity).

Definition TypeError : string := "TypeError".

(** ToBoolean. *)
Definition truthy (v : value) : bool :=
  match v with
  | None => false
  | Some JNull => false
  | Some (JBool b) => b
  | Some (JNum n) => negb (n =? 0)
  | Some (JStr s) => negb (s =? "")%string
  | Some (JArr _) => true
  | Some (JObj _) => true
  end.

(** Own property of an object, first binding of the key (a parsed object
    binds each key once). *)
Fixpoint lookup (k : string) (fs : list (string * json)) : value :=
  match fs with
  | [] => None
  | (k', v) :: rest => if (k' =? k)%string then Some v else lookup k rest
  end.

(** [o.k] for a key [k] that no prototype defines (the handlers read
    [icestats], [source], [server_name], [artist] and [title]): an own
    property of an object, [undefined] on every other non-null value. *)
Definition prop (o : json) (k : string) : value :=
  match o with
  | JObj fs => lookup k fs
  | _ => None
  end.

(** [v.k]: reading a property of [undefined] or [null] throws. *)
Definition get (v : value) (k : string) : completion value :=
  match v with
  | None => Throw TypeError
  | Some JNull => Throw TypeError
  | Some o => Normal (prop o k)
  end.

(** [v?.k]. *)
Definition get_opt (v : value) (k : string) : value :=
  match v with
  | None => None
  | Some JNull => None
  | Some o => prop o k
  end.

(** [o.k = v] on an object: the key keeps its place when it exists and is
    appended otherwise. *)
Fixpoint assign (k : string) (v : json) (fs : list (string * json))
  : list (string * json) :=
  match fs with
  | [] => [(k, v)]
  | (k', v') :: rest =>
      if (k' =? k)%string then (k, v) :: rest else (k', v') :: assign k v rest
  end.

(** [v ?? d]. *)
Definition nullish (v : value) (d : json) : json :=
  match v with
  | None => d
  | Some JNull => d
  | Some x => x
  end.

(** [x === s] for a string literal [s]. *)
Definition strict_eq_str (x : value) (s : string) : bool :=
  match x with
  | Some (JStr t) => (t =? s)%string
  | _ => false
  end.

Definition join (sep : string) (parts : list string) : string :=
  match parts with
  | [] => ""
  | p :: rest => fold_left (fun acc q => acc ++ sep ++ q) rest p
  end.

(** ToString of a parsed JSON value, as a template literal applies it. *)
Fixpoint to_string (v : json) : string :=
  match v with
  | JNull => "null"
  | JBool true => "true"
  | JBool false => "false"
  | JNum n => NilZero.string_of_int (Z.to_int n)
  | JStr s => s
  | JArr items =>
      join "," (map (fun x => match x with
                              | JNull => ""
                              | _ => to_string x
                              end) items)
  | JObj _ => "[object Object]"
  end.

End JS.
Import JS.

(** ** The status routes ([GET] of the three [*-status] pages) *)

Module Status.

(** Body of a [Response]: a literal text, or [JSON.stringify] of a value. *)
Inductive body : Type :=
| Text (s : string)
| Stringify (v : json).

Record Response : Type := mkResponse {
  status : Z;
  content_type : string;
  payload : body
}.

(** [source.find((source) => source.server_name === name)].  The receiver
    must be an array: on any other truthy value [find] is not a function.
    The callback throws on a [null] element. *)
Fixpoint find_source (name : string) (items : list json)
  : completion value :=
  match items with
  | [] => Normal None
  | x :: rest =>
      sn <- get (Some x) "server_name" ;;
      if strict_eq_str sn name then Normal (Some x)
      else find_source name rest
  end.

Definition find (name : string) (source : value) : completion value :=
  match source with
  | Some (JArr items) => find_source name items
  | _ => Throw TypeError
  end.

(** [vapor.listenurl = url]: throws on [undefined]; the module is strict,
    so it throws on a primitive too. *)
Definition set_listenurl (url : string) (entry : value) : completion value :=
  match entry with
  | Some (JObj fs) => Normal (Some (JObj (assign "listenurl" (JStr url) fs)))
  | Some (JArr items) => Normal (Some (JArr items))
  | _ => Throw TypeError
  end.

Section Route.

(** The two literals in which the three routes differ. *)
Variable server_name : string.
Variable listenurl : string.

Definition not_found : Response :=
  mkResponse 404 "application/json" (Text "No data found").

(** The handler, from the parsed upstream document on. *)
Definition GET (json : json) : completion Response :=
  icestats <- get (Some json) "icestats" ;;
  let source := get_opt icestats "source" in
  if truthy source then
    vapor <- find server_name source ;;
    vapor <- set_listenurl listenurl vapor ;;
    Normal (mkResponse 200 "application/json"
              (Stringify (nullish vapor (JObj []))))
  else Normal not_found.

End Route.

(** The routes as deployed. *)
Definition GET_vapor : json -> completion Response :=
  GET "Vaporwave Radio" "https://krelez.ruohki.dev/vapor/stream".
Definition GET_vaporfunk : json -> completion Response :=
  GET "VaporFunk radio" "https://krelez.ruohki.dev/vapor/stream".
Definition GET_chip : json -> completion Response :=
  GET "Chiptune Radio" "https://krelez.ruohki.dev/chip/stream".

(** The entries of the document's source list, when it has one. *)
Definition source_list (doc : json) : option (list json) :=
  match get_opt (prop doc "icestats") "source" with
  | Some (JArr items) => Some items
  | _ => None
  end.

(** The entry carries the name. *)
Definition named (name : string) (x : json) : bool :=
  strict_eq_str (prop x "server_name") name.

(** No entry of the list carries the name. *)
Definition no_entry_named (name : string) (items : list json) : bool :=
  forallb (fun x => negb (named name x)) items.

(** The document has no truthy [icestats.source]. *)
Definition lacks_source (doc : json) : Prop :=
  doc <> JNull /\ truthy (get_opt (prop doc "icestats") "source") = false.

End Status.

(** ** Numbers and [parseFloat] *)

Module Num.

(** A JavaScript number: a finite value is kept as the exact rational its
    numeral denotes (no rounding to binary64, no signed zero). *)
Inductive number : Type :=
| NaN
| Infinity (negative : bool)
| Finite (q : Q).

(** White space, as far as ASCII goes: TAB, LF, VT, FF, CR and space. *)
Definition is_space (c : ascii) : bool :=
  let n := nat_of_ascii c in
  ((9 <=? n) && (n <=? 13) || (n =? 32))%nat.

Definition is_digit (c : ascii) : bool :=
  let n := nat_of_ascii c in
  ((48 <=? n) && (n <=? 57))%nat.

Definition digit_value (c : ascii) : Z :=
  Z.of_nat (nat_of_ascii c - 48).

Fixpoint trim_start (s : string) : string :=
  match s with
  | String c rest => if is_space c then trim_start rest else s
  | EmptyString => s
  end.

(** The leading decimal digits of [s], folded into [acc], their count,
    and what follows them. *)
Fixpoint digits (s : string) (acc : Z) (count : Z) : Z * Z * string :=
  match s with
  | String c rest =>
      if is_digit c then digits rest (10 * acc + digit_value c) (count + 1)
      else (acc, count, s)
  | EmptyString => (acc, count, s)
  end.

Definition sign (s : string) : bool * string :=
  match s with
  | String "-"%char rest => (true, rest)
  | String "+"%char rest => (false, rest)
  | _ => (false, s)
  end.

(** An exponent part counts only when a digit follows [e] and its sign. *)
Definition exponent (s : string) : Z :=
  match s with
  | String c rest =>
      if (Ascii.eqb c "e" || Ascii.eqb c "E")%bool then
        let '(neg, rest') := sign rest in
        let '(e, count, _) := digits rest' 0 0 in
        if count =? 0 then 0 else if neg then - e else e
      else 0
  | EmptyString => 0
  end.

Definition scale (m : Z) (e : Z) : Q :=
  if 0 <=? e then inject_Z (m * 10 ^ e)
  else Qmake m (Z.to_pos (10 ^ (- e))).

(** [parseFloat]: leading white space is skipped and the longest prefix
    that is a decimal literal is converted; there is [NaN] when no prefix
    is one. *)
Definition parseFloat (input : string) : number :=
  let '(neg, s) := sign (trim_start input) in
  if prefix "Infinity" s then Infinity neg
  else
    let '(ip, icount, s1) := digits s 0 0 in
    let '(m, fcount, s2) :=
      match s1 with
      | String "."%char rest => digits rest ip 0
      | _ => (ip, 0, s1)
      end in
    if (icount =? 0) && (fcount =? 0) then NaN
    else
      let q := scale m (exponent s2 - fcount) in
      Finite (if neg then Qopp q else q).

Definition in_unit_interval (n : number) : bool :=
  match n with
  | Finite q => Qle_bool 0 q && Qle_bool q 1
  | _ => false
  end.

Definition same (a b : number) : Prop :=
  match a, b with
  | NaN, NaN => True
  | Infinity x, Infinity y => x = y
  | Finite p, Finite q => Qeq p q
  | _, _ => False
  end.

End Num.
Import Num.

(** ** Persisted volume ([useState] initialiser of both players) *)

Module Volume.

Definition localStorage := list (string * string).

Fixpoint getItem (key : string) (ls : localStorage) : option string :=
  match ls with
  | [] => None
  | (k, v) :: rest => if (k =? key)%string then Some v else getItem key rest
  end.

Definition default_volume : number := Finite (7 # 10).

(** The initialiser; [window] tells whether the code runs in a browser
    and [key] is ['chiptunePlayerVolume'] or ['vaporPlayerVolume']. *)
Definition initial_volume (key : string) (window : option localStorage)
  : number :=
  match window with
  | Some ls =>
      let savedVolume := getItem key ls in
      match savedVolume with
      | Some s => if negb (s =? "")%string then parseFloat s
                  else default_volume
      | None => default_volume
      end
  | None => default_volume
  end.

(** The numeral of the slider position [k / 100] (the range input runs
    from 0 to 1 in steps of 0.01). *)
Definition two_digits (k : nat) : string :=
  let d := NilZero.string_of_uint (Nat.to_uint k) in
  if (k <? 10)%nat then "0" ++ d
  else if (k mod 10 =? 0)%nat then NilZero.string_of_uint (Nat.to_uint (k / 10))
  else d.

Definition hundredths (k : nat) : string :=
  if (k =? 0)%nat then "0"
  else if (100 <=? k)%nat then "1"
  else "0." ++ two_digits k.

(** [parseFloat] reads the numeral of the slider position back as
    [k / 100], a value of the unit interval. *)
Definition reads_back (k : nat) : bool :=
  negb (hundredths k =? "")%string
  && match parseFloat (hundredths k) with
     | Finite q =>
         Qeq_bool q (Z.of_nat k # 100) && in_unit_interval (Finite q)
     | _ => false
     end.

End Volume.

(** ** The players ([chiptuneplayer.tsx] and [vaporplayer.tsx]) *)

Module Player.

(** The two components differ in how track updates reach them: the
    chiptune player polls [/metadata] every five seconds, the vapor player
    listens on an [EventSource]. *)
Inductive transport : Type :=
| Pull
| Push.

Record TrackHistoryEntry : Type := mkEntry {
  title : value;
  artist : value;
  startedAt : Z
}.

(** What one run of the metadata effect captures from its render: an
    identity (which run it is), [isPlaying] and [currentTrack]. *)
Record closure : Type := mkClosure {
  c_id : nat;
  c_isPlaying : bool;
  c_currentTrack : option json
}.

Record state : Type := mkState {
  (* React state *)
  isPlaying : bool;
  volume : number;
  isMuted : bool;
  currentTrack : option json;
  playbackTime : Z;
  trackHistory : list TrackHistoryEntry;
  (* refs *)
  audioRef : bool;
  lastTrackRef : option string;
  eventSourceRef : option nat;
  (* the live run of the metadata effect and its local timer *)
  effect : closure;
  pollingInterval : option nat;
  (* the browser: running poll timers and open event sources, fetches of
     [/metadata] in flight (each with the closure that issued it), whether
     the autoplay attempt and the initial fetch are still under way, manual
     play() promises not yet settled, ids not yet used, the console *)
  handles : list nat;
  pending : list closure;
  autoplayPending : bool;
  initialPending : bool;
  playsPending : nat;
  fresh : nat;
  console : list string
}.

Definition with_isPlaying (b : bool) (s : state) : state :=
  mkState b (volume s) (isMuted s) (currentTrack s) (playbackTime s)
    (trackHistory s) (audioRef s) (lastTrackRef s) (eventSourceRef s)
    (effect s) (pollingInterval s) (handles s) (pending s)
    (autoplayPending s) (initialPending s) (playsPending s) (fresh s)
    (console s).

Definition with_volume (v : number) (s : state) : state :=
  mkState (isPlaying s) v (isMuted s) (currentTrack s) (playbackTime s)
    (trackHistory s) (audioRef s) (lastTrackRef s) (eventSourceRef s)
    (effect s) (pollingInterval s) (handles s) (pending s)
    (autoplayPending s) (initialPending s) (playsPending s) (fresh s)
    (console s).

Definition with_isMuted (b : bool) (s : state) : state :=
  mkState (isPlaying s) (volume s) b (currentTrack s) (playbackTime s)
    (trackHistory s) (audioRef s) (lastTrackRef s) (eventSourceRef s)
    (effect s) (pollingInterval s) (handles s) (pending s)
    (autoplayPending s) (initialPending s) (playsPending s) (fresh s)
    (console s).

Definition with_currentTrack (t : option json) (s : state) : state :=
  mkState (isPlaying s) (volume s) (isMuted s) t (playbackTime s)
    (trackHistory s) (audioRef s) (lastTrackRef s) (eventSourceRef s)
    (effect s) (pollingInterval s) (handles s) (pending s)
    (autoplayPending s) (initialPending s) (playsPending s) (fresh s)
    (console s).

Definition with_playbackTime (t : Z) (s : state) : state :=
  mkState (isPlaying s) (volume s) (isMuted s) (currentTrack s) t
    (trackHistory s) (audioRef s) (lastTrackRef s) (eventSourceRef s)
    (effect s) (pollingInterval s) (handles s) (pending s)
    (autoplayPending s) (initialPending s) (playsPending s) (fresh s)
    (console s).

Definition with_trackHistory (h : list TrackHistoryEntry) (s : state)
  : state :=
  mkState (isPlaying s) (volume s) (isMuted s) (currentTrack s)
    (playbackTime s) h (audioRef s) (lastTrackRef s) (eventSourceRef s)
    (effect s) (pollingInterval s) (handles s) (pending s)
    (autoplayPending s) (initialPending s) (playsPending s) (fresh s)
    (console s).

Definition with_lastTrackRef (r : option string) (s : state) : state :=
  mkState (isPlaying s) (volume s) (isMuted s) (currentTrack s)
    (playbackTime s) (trackHistory s) (audioRef s) r (eventSourceRef s)
    (effect s) (pollingInterval s) (handles s) (pending s)
    (autoplayPending s) (initialPending s) (playsPending s) (fresh s)
    (console s).

(** The resources of the metadata effect, replaced together when the
    effect is cleaned up and run again. *)
Definition with_subscription (ref : option nat) (c : closure)
  (timer : option nat) (hs : list nat) (fs : list closure) (next : nat)
  (s : state) : state :=
  mkState (isPlaying s) (volume s) (isMuted s) (currentTrack s)
    (playbackTime s) (trackHistory s) (audioRef s) (lastTrackRef s) ref
    c timer hs fs (autoplayPending s) (initialPending s) (playsPending s)
    next (console s).

Definition with_pending (fs : list closure) (s : state) : state :=
  with_subscription (eventSourceRef s) (effect s) (pollingInterval s)
    (handles s) fs (fresh s) s.

Definition with_promises (auto initial : bool) (n : nat) (s : state)
  : state :=
  mkState (isPlaying s) (volume s) (isMuted s) (currentTrack s)
    (playbackTime s) (trackHistory s) (audioRef s) (lastTrackRef s)
    (eventSourceRef s) (effect s) (pollingInterval s) (handles s)
    (pending s) auto initial n (fresh s) (console s).

(** [console.error(msg, ...)]. *)
Definition log (msg : string) (s : state) : state :=
  mkState (isPlaying s) (volume s) (isMuted s) (currentTrack s)
    (playbackTime s) (trackHistory s) (audioRef s) (lastTrackRef s)
    (eventSourceRef s) (effect s) (pollingInterval s) (handles s)
    (pending s) (autoplayPending s) (initialPending s) (playsPending s)
    (fresh s)
    (console s ++ [msg]).

(** [clearInterval] / [EventSource.close]. *)
Definition release (h : option nat) (hs : list nat) : list nat :=
  match h with
  | Some id => filter (fun x => negb (Nat.eqb x id)) hs
  | None => hs
  end.

(** [fetchAndUpdateTrack] up to its first await, run by closure [c]: the
    request is in flight. *)
Definition fetchAndUpdateTrack (c : closure) (s : state) : state :=
  if negb (c_isPlaying c) then s
  else with_pending (pending s ++ [c]) s.

(** After a render in which [isPlaying], [endpoint] or [currentTrack]
    changed, React cleans the previous run of the metadata effect up and
    runs it again; the event handlers below run to completion, and render
    and effect follow before the next event. *)
Definition run_effect (tr : transport) (s : state) : state :=
  let c := mkClosure (fresh s) (isPlaying s) (currentTrack s) in
  let h := S (fresh s) in
  match tr with
  | Pull =>
      (* cleanup of the previous run:
         isUnmounted = true; clearInterval(pollingInterval) *)
      let hs := release (pollingInterval s) (handles s) in
      if isPlaying s then
        (* fetchAndUpdateTrack(); pollingInterval = setInterval(...) *)
        fetchAndUpdateTrack c
          (with_subscription (eventSourceRef s) c (Some h) (h :: hs)
             (pending s) (S h) s)
      else
        with_subscription (eventSourceRef s) c None hs (pending s) h s
  | Push =>
      (* cleanup of the previous run, then setupSSE: both close
         eventSourceRef.current and set it to null *)
      let hs := release (eventSourceRef s) (handles s) in
      if isPlaying s then
        (* eventSourceRef.current = new EventSource(...) *)
        with_subscription (Some h) c (pollingInterval s) (h :: hs)
          (pending s) (S h) s
      else
        with_subscription None c (pollingInterval s) hs (pending s) h s
  end.

(** A state setter re-renders; React bails out when a boolean state is
    set to the value it has. *)
Definition setIsPlaying (tr : transport) (b : bool) (s : state) : state :=
  if Bool.eqb (isPlaying s) b then s
  else run_effect tr (with_isPlaying b s).

(** [data] is a freshly parsed object, never the one already held. *)
Definition setCurrentTrack (tr : transport) (data : json) (s : state)
  : state :=
  run_effect tr (with_currentTrack (Some data) s).

Definition to_string_value (v : value) : string :=
  match v with
  | Some x => to_string x
  | None => "undefined"
  end.

(** [`${data.artist}-${data.title}`]. *)
Definition trackId (data : json) : string :=
  to_string_value (prop data "artist") ++ "-"
    ++ to_string_value (prop data "title").

(** [data.artist && data.title], as a condition. *)
Definition has_artist_and_title (data : json) : completion bool :=
  a <- get (Some data) "artist" ;;
  if truthy a then
    t <- get (Some data) "title" ;;
    Normal (truthy t)
  else Normal false.

(** [lastTrackRef.current !== trackId]. *)
Definition differs (last : option string) (id : string) : bool :=
  match last with
  | Some l => negb (l =? id)%string
  | None => true
  end.

(** The body of the [try] shared by [fetchAndUpdateTrack] (after the two
    awaits) and [eventSource.onmessage] (after [JSON.parse]), run by the
    closure [c] at time [now]. *)
Definition update_track (tr : transport) (c : closure) (now : Z)
  (data : json) (s : state) : completion state :=
  ok <- has_artist_and_title data ;;
  if ok then
    let id := trackId data in
    if differs (lastTrackRef s) id then
      let s1 :=
        match c_currentTrack c with
        | Some currentTrack =>
            with_trackHistory
              (firstn 3 (mkEntry (prop currentTrack "title")
                                 (prop currentTrack "artist")
                                 (now - 1000)
                         :: trackHistory s)) s
        | None => s
        end in
      let s2 := with_lastTrackRef (Some id) s1 in
      Normal (setCurrentTrack tr data s2)
    else Normal s
  else Normal s.

(** The [try] of [fetchInitialMetadata], after its two awaits. *)
Definition fetchInitialMetadata (tr : transport) (data : json) (s : state)
  : completion state :=
  ok <- has_artist_and_title data ;;
  if ok then
    let s1 := setCurrentTrack tr data s in
    Normal (with_lastTrackRef (Some (trackId data)) s1)
  else Normal s.

(** A [catch] that logs. *)
Definition catch_log (msg : string) (quiet : bool) (s : state)
  (c : completion state) : state :=
  match c with
  | Normal s' => s'
  | Throw _ => if quiet then s else log msg s
  end.

Fixpoint remove_nth {A} (i : nat) (l : list A) : list A :=
  match i, l with
  | _, [] => []
  | O, _ :: rest => rest
  | S j, x :: rest => x :: remove_nth j rest
  end.

(** What can happen to a mounted player.  A settled fetch or a message
    carries the parsed body, or nothing when the request failed or the
    body did not parse. *)
Inductive event : Type :=
| AutoplaySettled (resolved : bool)
| InitialMetadata (body : option json)
| TogglePlayPause
| PlaySettled (resolved : bool)
| ToggleMute
| VolumeChange (input : string)
| Tick
| PollTick
| FetchSettled (i : nat) (now : Z) (body : option json)
| Message (now : Z) (body : option json)
| TransportError
| Ended
| AudioError.

(** [startPlayback], from the settling of [audioRef.current.play()] on. *)
Definition startPlayback (tr : transport) (resolved : bool)
  (s : state) : state :=
  if autoplayPending s then
    let s := with_promises false (initialPending s) (playsPending s) s in
    if resolved then setIsPlaying tr true s
    else setIsPlaying tr false (log "Autoplay failed:" s)
  else s.

Definition togglePlayPause (tr : transport) (s : state) : state :=
  if audioRef s then
    let s1 :=
      if isPlaying s then s (* audioRef.current.pause() *)
      else with_promises (autoplayPending s) (initialPending s)
             (S (playsPending s)) s in
    setIsPlaying tr (negb (isPlaying s)) s1
  else s.

(** The [catch] attached to [play()] in [togglePlayPause]. *)
Definition play_settled (resolved : bool) (s : state) : state :=
  match playsPending s with
  | O => s
  | S n =>
      let s := with_promises (autoplayPending s) (initialPending s) n s in
      if resolved then s else log "Playback failed:" s
  end.

(** [isUnmounted] of the run [c]: set by its cleanup, so true of every
    run but the live one. *)
Definition isUnmounted (c : closure) (s : state) : bool :=
  negb (Nat.eqb (c_id c) (c_id (effect s))).

(** The [try ... catch] of [fetchAndUpdateTrack] and of [onmessage], run by
    closure [c] on a settled request or an incoming message.  Only the
    poller's [catch] looks at [isUnmounted], and only to stay quiet. *)
Definition receive (tr : transport) (c : closure) (now : Z)
  (body : option json) (s : state) : state :=
  match tr with
  | Pull =>
      catch_log "Error polling metadata:" (isUnmounted c s) s
        match body with
        | Some data => update_track tr c now data s
        | None => Throw "fetch"
        end
  | Push =>
      catch_log "Error parsing SSE data:" false s
        match body with
        | Some data => update_track tr c now data s
        | None => Throw "SyntaxError"
        end
  end.

(** The [i]-th request in flight settles. *)
Definition fetch_settled (i : nat) (now : Z) (body : option json)
  (s : state) : state :=
  match nth_error (pending s) i with
  | Some c =>
      receive Pull c now body (with_pending (remove_nth i (pending s)) s)
  | None => s
  end.

(** A message arrives on the open event source. *)
Definition onmessage (now : Z) (body : option json) (s : state) : state :=
  match eventSourceRef s with
  | Some _ => receive Push (effect s) now body s
  | None => s
  end.

(** [eventSource.onerror]: the source is closed and not reopened. *)
Definition onerror (s : state) : state :=
  match eventSourceRef s with
  | Some h =>
      let s := log "SSE connection error:" s in
      with_subscription None (effect s) (pollingInterval s)
        (release (Some h) (handles s)) (pending s) (fresh s) s
  | None => s
  end.

Definition onEnded (tr : transport) (s : state) : state :=
  with_playbackTime 0 (setIsPlaying tr false s).

Definition onError (tr : transport) (s : state) : state :=
  log "Stream connection failed. Please try again later."
    (with_playbackTime 0 (setIsPlaying tr false s)).

Definition toggleMute (s : state) : state :=
  with_isMuted (negb (isMuted s)) s.

(** [e.target.value] is the string [input]. *)
Definition handleVolumeChange (input : string) (s : state) : state :=
  let newVolume := parseFloat input in
  with_volume newVolume s.

(** The interval of the timer effect, which runs while [isPlaying]:
    [setPlaybackTime(prev => prev + 1)]. *)
Definition tick (s : state) : state :=
  if isPlaying s then with_playbackTime (playbackTime s + 1) s else s.

Definition step (tr : transport) (s : state) (e : event) : state :=
  match e with
  | AutoplaySettled r => startPlayback tr r s
  | InitialMetadata body =>
      if initialPending s then
        let s := with_promises (autoplayPending s) false (playsPending s) s in
        catch_log "Error fetching initial metadata:" false s
          match body with
          | Some data => fetchInitialMetadata tr data s
          | None => Throw "fetch"
          end
      else s
  | TogglePlayPause => togglePlayPause tr s
  | PlaySettled r => play_settled r s
  | ToggleMute => toggleMute s
  | VolumeChange input => handleVolumeChange input s
  | Tick => tick s
  | PollTick =>
      match tr, pollingInterval s with
      | Pull, Some _ => fetchAndUpdateTrack (effect s) s
      | _, _ => s
      end
  | FetchSettled i now body =>
      match tr with
      | Pull => fetch_settled i now body s
      | Push => s
      end
  | Message now body =>
      match tr with
      | Push => onmessage now body s
      | Pull => s
      end
  | TransportError =>
      match tr with
      | Push => onerror s
      | Pull => s
      end
  | Ended => onEnded tr s
  | AudioError => onError tr s
  end.

(** A freshly mounted player: every effect has run once with
    [isPlaying = false], the audio element is in the page and the
    autoplay attempt is under way. *)
Definition mount (v : number) : state :=
  mkState false v false None 0 [] true None None
    (mkClosure 0 false None) None [] [] true true 0 1 [].

Definition run (tr : transport) (s : state) (es : list event) : state :=
  fold_left (step tr) es s.

Definition reachable (tr : transport) (s : state) : Prop :=
  exists v es, s = run tr (mount v) es.

(** The subscription resources that are alive, and the one the live run
    of the effect holds. *)
Definition live_handles (s : state) : list nat := handles s.

Definition subscription (tr : transport) (s : state) : option nat :=
  match tr with
  | Pull => pollingInterval s
  | Push => eventSourceRef s
  end.

(** *** Vocabulary of the properties *)

Definition olist (h : option nat) : list nat :=
  match h with
  | Some x => [x]
  | None => []
  end.

(** The live resources are the one the effect holds, if any, and it holds
    one only while playing. *)
Definition subscribed (tr : transport) (s : state) : Prop :=
  live_handles s = olist (subscription tr s)
  /\ (subscription tr s <> None -> isPlaying s = true).

(** An event left the subscription, the play state and the captured track
    alone. *)
Definition untouched (tr : transport) (s s' : state) : Prop :=
  live_handles s' = live_handles s
  /\ subscription tr s' = subscription tr s
  /\ isPlaying s' = isPlaying s
  /\ effect s' = effect s
  /\ currentTrack s' = currentTrack s.

(** An event made the effect run again. *)
Definition resubscribed (tr : transport) (s' : state) : Prop :=
  live_handles s' = olist (subscription tr s')
  /\ (subscription tr s' <> None <-> isPlaying s' = true)
  /\ c_currentTrack (effect s') = currentTrack s'.

(** An event either leaves the subscription alone or runs the effect
    again. *)
Definition settled (tr : transport) (s s' : state) : Prop :=
  untouched tr s s' \/ resubscribed tr s'.

(** A transport error closed the event source. *)
Definition disconnected (s s' : state) : Prop :=
  live_handles s' = release (eventSourceRef s) (live_handles s)
  /\ eventSourceRef s' = None
  /\ isPlaying s' = isPlaying s
  /\ effect s' = effect s
  /\ currentTrack s' = currentTrack s.

(** The live run of the effect receives a body: a message on the open
    source, or the answer to a request it issued itself. *)
Definition deliver (tr : transport) (s : state) (m : Z * json) : state :=
  receive tr (effect s) (fst m) (Some (snd m)) s.

(** The body carries a truthy artist and a truthy title. *)
Definition valid (data : json) : bool :=
  match has_artist_and_title data with
  | Normal ok => ok
  | Throw _ => false
  end.

(** The body passes both tests of [update_track]: a change is detected. *)
Definition detects (data : json) (s : state) : bool :=
  valid data && differs (lastTrackRef s) (trackId data).

(** Which of the bodies delivered in a row are detected as changes. *)
Fixpoint detections (tr : transport) (s : state) (ms : list (Z * json))
  : list bool :=
  match ms with
  | [] => []
  | m :: rest => detects (snd m) s :: detections tr (deliver tr s m) rest
  end.

(** Every body is a track change with respect to the one before it. *)
Fixpoint transitions (last : option string) (ms : list (Z * json)) : bool :=
  match ms with
  | [] => true
  | m :: rest =>
      valid (snd m) && differs last (trackId (snd m))
      && transitions (Some (trackId (snd m))) rest
  end.

Definition entry_of (now : Z) (track : json) : TrackHistoryEntry :=
  mkEntry (prop track "title") (prop track "artist") (now - 1000).

(** The tracks superseded by a row of transitions, oldest first: each is
    the track that was current when the next one arrived. *)
Fixpoint superseded (current : option json) (ms : list (Z * json))
  : list TrackHistoryEntry :=
  match ms with
  | [] => []
  | m :: rest =>
      match current with
      | Some t => [entry_of (fst m) t]
      | None => []
      end ++ superseded (Some (snd m)) rest
  end.

(** The state a detected change leads to: the track the closure holds is
    archived, the body becomes the current track. *)
Definition after_change (tr : transport) (c : closure) (now : Z)
  (data : json) (s : state) : state :=
  setCurrentTrack tr data
    (with_lastTrackRef (Some (trackId data))
       match c_currentTrack c with
       | Some t =>
           with_trackHistory (firstn 3 (entry_of now t :: trackHistory s)) s
       | None => s
       end).

(** The live run of the effect holds the track of the last render. *)
Definition in_sync (s : state) : Prop :=
  c_currentTrack (effect s) = currentTrack s.

(** A field is missing or is the empty string. *)
Definition missing_or_empty (data : json) (k : string) : Prop :=
  prop data k = None \/ prop data k = Some (JStr "").

Definition track (a t : string) : json :=
  JObj [("artist", JStr a); ("title", JStr t)].

Definition NUL : string := String (ascii_of_nat 0) EmptyString.

End Player.

(** ** What the players render *)

Module Display.
Import Player.

(** The first [n] characters of [pad] repeated; [rest] is what is left of
    the current copy. *)
Fixpoint fill (n : nat) (pad rest : string) : string :=
  match n with
  | O => ""
  | S k =>
      match rest with
      | String c r => String c (fill k pad r)
      | EmptyString =>
          match pad with
          | String c r => String c (fill k pad r)
          | EmptyString => ""
          end
      end
  end.

(** [s.padStart(n, pad)]. *)
Definition padStart (n : nat) (pad : string) (s : string) : string :=
  if (n <=? String.length s)%nat then s
  else fill (n - String.length s) pad pad ++ s.

(** [formatTime], on a whole number of seconds. *)
Definition formatTime (seconds : Z) : string :=
  let minutes := seconds / 60 in
  let remainingSeconds := Z.rem seconds 60 in
  padStart 2 "0" (to_string (JNum minutes)) ++ ":"
    ++ padStart 2 "0" (to_string (JNum remainingSeconds)).

(** The line under the history heading. *)
Definition playback_line (s : state) : string :=
  if isPlaying s then "Playback time: " ++ formatTime (playbackTime s)
  else "Ready to play".

(** What the volume effect assigns to [audioRef.current.volume]. *)
Definition assigned_volume (s : state) : number :=
  if isMuted s then Finite 0 else volume s.

(** The decimal digit [n] as a character. *)
Definition digit (n : Z) : ascii := ascii_of_nat (48 + Z.to_nat n).

(** Minutes and seconds on two digits each. *)
Definition clock (seconds : Z) : string :=
  String (digit (seconds / 60 / 10))
    (String (digit ((seconds / 60) mod 10))
       (String ":"%char
          (String (digit ((seconds mod 60) / 10))
             (String (digit ((seconds mod 60) mod 10)) EmptyString)))).

Definition shows_clock (n : nat) : bool :=
  (formatTime (Z.of_nat n) =? clock (Z.of_nat n))%string.

(** The number of ticks among the events. *)
Definition is_tick (e : event) : bool :=
  match e with
  | Tick => true
  | _ => false
  end.

Definition ticks (es : list event) : Z :=
  Z.of_nat (length (filter is_tick es)).

End Display.

(** ** The landing page ([index.astro], client script) *)

Module Index.

(** U+266A, as the page is served. *)
Definition note : string :=
  String "226"%char (String "153"%char (String "170"%char EmptyString)).

(** The two paragraphs the script writes to, and the console.  The
    script runs only when both elements are found. *)
Record page : Type := mkPage {
  chiptune_track : string;
  vapor_track : string;
  console : list string
}.

Definition label (data : json) : string :=
  note ++ " " ++ Player.to_string_value (prop data "artist") ++ " - "
    ++ Player.to_string_value (prop data "title").

(** One [try ... catch] of [updateTracks]: the response (nothing when the
    request or the parse failed), the text so far; the new text and what is
    logged. *)
Definition try_update (msg : string) (response : option json)
  (text : string) : string * list string :=
  match response with
  | Some data =>
      match Player.has_artist_and_title data with
      | Normal true => (label data, [])
      | Normal false => (text, [])
      | Throw _ => (text, [msg])
      end
  | None => (text, [msg])
  end.

Definition updateTracks (p : page) (responses : option json * option json)
  : page :=
  let chip :=
    try_update "Error fetching chiptune metadata:" (fst responses)
      (chiptune_track p) in
  let vapor :=
    try_update "Error fetching vapor funk metadata:" (snd responses)
      (vapor_track p) in
  mkPage (fst chip) (fst vapor) (console p ++ snd chip ++ snd vapor).

(** The last response with a truthy artist and title, if any. *)
Fixpoint last_valid (responses : list (option json)) : option json :=
  match responses with
  | [] => None
  | r :: rest =>
      match last_valid rest with
      | Some d => Some d
      | None =>
          match r with
          | Some d => if Player.valid d then Some d else None
          | None => None
          end
      end
  end.

Definition shown (start : string) (responses : list (option json))
  : string :=
  match last_valid responses with
  | Some d => label d
  | None => start
  end.

(** The request failed, or its body was [null]. *)
Definition failed (response : option json) : bool :=
  match response with
  | None => true
  | Some JNull => true
  | Some _ => false
  end.

End Index.

(** ** Well-formed player states *)

Module Wellformed.
Import Player.

Definition track_ok (t : option json) : Prop :=
  match t with
  | Some d => valid d = true
  | None => True
  end.

Definition entry_ok (e : TrackHistoryEntry) : Prop :=
  truthy (title e) = true /\ truthy (artist e) = true.

(** The last identity seen is that of the current track. *)
Definition consistent (s : state) : Prop :=
  match currentTrack s with
  | Some d => valid d = true /\ lastTrackRef s = Some (trackId d)
  | None => lastTrackRef s = None
  end.

Definition well_formed (s : state) : Prop :=
  consistent s
  /\ track_ok (c_currentTrack (effect s))
  /\ Forall (fun c => track_ok (c_currentTrack c)) (pending s)
  /\ Forall entry_ok (trackHistory s).

(** Two states agree on the tracks they hold. *)
Definition same_tracks (s s' : state) : Prop :=
  currentTrack s' = currentTrack s
  /\ lastTrackRef s' = lastTrackRef s
  /\ effect s' = effect s
  /\ pending s' = pending s
  /\ trackHistory s' = trackHistory s.

End Wellformed.

(** * Properties *)

(** ** Status routes *)

Section StatusFacts.
Import Status.

Lemma get_non_null (x : json) (k : string) :
  x <> JNull -> get (Some x) k = Normal (prop x k).
Proof. destruct x; simpl; congruence. Qed.

Lemma named_is_object (name : string) (x : json) :
  named name x = true -> exists fs, x = JObj fs.
Proof.
  destruct x; unfold named; simpl; try discriminate.
  intros _. eexists. reflexivity.
Qed.

(** On a list without [null], [find] is the first entry that carries the
    name. *)
Lemma find_source_first (name : string) (items : list json) :
  ~ In JNull items ->
  find_source name items = Normal (List.find (named name) items).
Proof.
  induction items as [|x rest IH]; intros Hnull; cbn [find_source List.find].
  - reflexivity.
  - rewrite get_non_null by (intros ->; apply Hnull; left; reflexivity).
    cbn [bind]. fold (named name x).
    destruct (named name x).
    + reflexivity.
    + apply IH. intros Hin. apply Hnull. right. exact Hin.
Qed.

Lemma source_list_truthy (doc : json) (items : list json) :
  source_list doc = Some items ->
  doc <> JNull
  /\ get_opt (prop doc "icestats") "source" = Some (JArr items).
Proof.
  unfold source_list. intros H. split.
  - intros ->. simpl in H. discriminate.
  - destruct (get_opt (prop doc "icestats") "source") as [[]|];
      try discriminate.
    congruence.
Qed.

(** Ahead of the first entry that carries the name, [find] only needs the
    entries to be there: a [null] among them makes the callback throw. *)
Lemma find_source_app (name : string) (pre post : list json) (x : json) :
  ~ In JNull pre ->
  no_entry_named name pre = true ->
  named name x = true ->
  find_source name (pre ++ x :: post) = Normal (Some x).
Proof.
  intros Hnull Hnone Hx.
  induction pre as [|a pre IH]; cbn [app find_source].
  - destruct (named_is_object name x Hx) as [fs ->].
    cbn [get bind]. fold (named name (JObj fs)). rewrite Hx. reflexivity.
  - cbn [no_entry_named forallb] in Hnone.
    apply andb_true_iff in Hnone. destruct Hnone as [Ha Hrest].
    rewrite get_non_null by (intros ->; apply Hnull; left; reflexivity).
    cbn [bind]. fold (named name a).
    apply negb_true_iff in Ha. rewrite Ha.
    apply IH; [|exact Hrest].
    intros Hin. apply Hnull. right. exact Hin.
Qed.

End StatusFacts.

(** C1, as stated, fails: the upstream document lists one source under
    another name, and the handler of the vapor route throws instead of
    answering 404. *)
Lemma GET_unlisted_channel_throws :
  let doc :=
    JObj [("icestats",
           JObj [("source",
                  JArr [JObj [("server_name", JStr "Chiptune Radio");
                              ("listenurl", JStr "http://cast/chip")]])])] in
  Status.source_list doc
    = Some [JObj [("server_name", JStr "Chiptune Radio");
                  ("listenurl", JStr "http://cast/chip")]]
  /\ Status.no_entry_named "Vaporwave Radio"
       [JObj [("server_name", JStr "Chiptune Radio");
              ("listenurl", JStr "http://cast/chip")]] = true
  /\ Status.GET_vapor doc = Throw TypeError
  /\ forall r, Status.GET_vapor doc <> Normal r.
Proof.
  cbv zeta. repeat split; try reflexivity.
  intros r. vm_compute. discriminate.
Qed.

(** C1, amended: a document that is not [null] and has no truthy
    [icestats.source] is answered 404 with the text [No data found] under a
    JSON content type; a document whose source list has an entry with the
    configured name, with no [null] ahead of the first such entry, is
    answered 200 with that first entry, its [listenurl] rewritten. *)
Theorem GET_status (name url : string) (doc : json) :
  (doc <> JNull ->
   truthy (get_opt (prop doc "icestats") "source") = false ->
   Status.GET name url doc
   = Normal (Status.mkResponse 404 "application/json"
               (Status.Text "No data found")))
  /\ (forall pre x post,
        Status.source_list doc = Some (pre ++ x :: post)%list ->
        ~ In JNull pre ->
        Status.no_entry_named name pre = true ->
        Status.named name x = true ->
        exists fs,
          x = JObj fs
          /\ Status.GET name url doc
             = Normal (Status.mkResponse 200 "application/json"
                         (Status.Stringify
                            (JObj (assign "listenurl" (JStr url) fs))))).
Proof.
  split.
  - intros Hdoc Hfalsy. unfold Status.GET.
    rewrite get_non_null by exact Hdoc. cbn [bind].
    rewrite Hfalsy. reflexivity.
  - intros pre x post Hlist Hnull Hnone Hx.
    destruct (source_list_truthy doc _ Hlist) as [Hdoc Hsrc].
    destruct (named_is_object name x Hx) as [fs ->].
    exists fs. split; [reflexivity|].
    unfold Status.GET. rewrite get_non_null by exact Hdoc. cbn [bind].
    rewrite Hsrc. cbn [truthy Status.find].
    rewrite (find_source_app name pre post (JObj fs) Hnull Hnone Hx).
    reflexivity.
Qed.

Lemma GET_status_witness :
  Status.GET_vapor (JObj [("icestats", JObj [])])
  = Normal (Status.mkResponse 404 "application/json"
              (Status.Text "No data found"))
  /\ exists fs,
       JObj [("server_name", JStr "Vaporwave Radio"); ("listeners", JNum 3)]
       = JObj fs
       /\ Status.GET_vapor
            (JObj [("icestats",
                    JObj [("source",
                           JArr [JObj [("server_name", JStr "Chiptune Radio")];
                                 JObj [("server_name", JStr "Vaporwave Radio");
                                       ("listeners", JNum 3)];
                                 JNull])])])
          = Normal (Status.mkResponse 200 "application/json"
                      (Status.Stringify
                         (JObj (assign "listenurl"
                                  (JStr
                                     "https://krelez.ruohki.dev/vapor/stream")
                                  fs)))).
Proof.
  split.
  - apply (proj1 (GET_status "Vaporwave Radio"
             "https://krelez.ruohki.dev/vapor/stream"
             (JObj [("icestats", JObj [])]))).
    + discriminate.
    + reflexivity.
  - apply (proj2 (GET_status "Vaporwave Radio"
             "https://krelez.ruohki.dev/vapor/stream"
             (JObj [("icestats",
                    JObj [("source",
                           JArr [JObj [("server_name", JStr "Chiptune Radio")];
                                 JObj [("server_name", JStr "Vaporwave Radio");
                                       ("listeners", JNum 3)];
                                 JNull])])]))
            [JObj [("server_name", JStr "Chiptune Radio")]]
            (JObj [("server_name", JStr "Vaporwave Radio");
                   ("listeners", JNum 3)])
            [JNull]).
    + reflexivity.
    + cbn. intros [H|[]]. discriminate.
    + reflexivity.
    + reflexivity.
Defined.

(** ** Persisted volume *)

Section VolumeFacts.
Import Volume.

Lemma slider_positions_read_back :
  forallb reads_back (seq 0 101) = true.
Proof. vm_compute. reflexivity. Qed.

Lemma hundredths_read_back (k : nat) :
  (k <= 100)%nat ->
  hundredths k <> ""
  /\ same (parseFloat (hundredths k)) (Finite (Z.of_nat k # 100))
  /\ in_unit_interval (parseFloat (hundredths k)) = true.
Proof.
  intros Hk.
  assert (Hin : In k (seq 0 101)) by (apply in_seq; lia).
  pose proof (proj1 (forallb_forall reads_back (seq 0 101))
                slider_positions_read_back k Hin) as H.
  unfold reads_back in H.
  apply andb_true_iff in H. destruct H as [Hne H].
  split.
  - intros E. rewrite E in Hne. discriminate.
  - destruct (parseFloat (hundredths k)) as [| |q]; try discriminate.
    apply andb_true_iff in H. destruct H as [Heq Hunit].
    split; [apply Qeq_bool_iff; exact Heq | exact Hunit].
Qed.

End VolumeFacts.

(** C6, as stated, fails: a stored value that is no number is read back as
    [NaN], not as 0.7, and a stored number outside [0,1] is read back as
    it is. *)
Lemma initial_volume_unparseable_or_out_of_range :
  Volume.initial_volume "chiptunePlayerVolume"
    (Some [("chiptunePlayerVolume", "loud")]) = NaN
  /\ Volume.initial_volume "vaporPlayerVolume"
       (Some [("vaporPlayerVolume", "5")]) = Finite (inject_Z 5)
  /\ in_unit_interval
       (Volume.initial_volume "vaporPlayerVolume"
          (Some [("vaporPlayerVolume", "5")])) = false.
Proof. repeat split. Qed.

(** C6, amended: the volume read back at startup is 0.7 when the key is
    absent or holds the empty string (and outside a browser); any other
    stored string is read back as [parseFloat] makes of it, so the numeral
    of a slider position [k/100] is read back as that value, in [0,1]. *)
Theorem initial_volume_read_back (key : string) (ls : Volume.localStorage) :
  (Volume.getItem key ls = None \/ Volume.getItem key ls = Some "" ->
   Volume.initial_volume key (Some ls) = Finite (7 # 10))
  /\ (forall s, Volume.getItem key ls = Some s -> s <> "" ->
        Volume.initial_volume key (Some ls) = parseFloat s)
  /\ (forall k, (k <= 100)%nat ->
        Volume.getItem key ls = Some (Volume.hundredths k) ->
        same (Volume.initial_volume key (Some ls))
             (Finite (Z.of_nat k # 100))
        /\ in_unit_interval (Volume.initial_volume key (Some ls)) = true)
  /\ Volume.initial_volume key None = Finite (7 # 10)
  /\ in_unit_interval (Finite (7 # 10)) = true.
Proof.
  assert (Hparse : forall s, Volume.getItem key ls = Some s -> s <> "" ->
            Volume.initial_volume key (Some ls) = parseFloat s).
  { intros s Hs Hne. unfold Volume.initial_volume. rewrite Hs.
    destruct (String.eqb_spec s ""); [contradiction | reflexivity]. }
  split; [| split; [| split; [| split]]].
  - intros [H|H]; unfold Volume.initial_volume; rewrite H; reflexivity.
  - exact Hparse.
  - intros k Hk Hs.
    destruct (hundredths_read_back k Hk) as (Hne & Hsame & Hunit).
    rewrite (Hparse _ Hs Hne). split; assumption.
  - reflexivity.
  - reflexivity.
Qed.

Lemma initial_volume_read_back_witness :
  Volume.initial_volume "vaporPlayerVolume" (Some []) = Finite (7 # 10)
  /\ Volume.initial_volume "vaporPlayerVolume"
       (Some [("vaporPlayerVolume", "0.35")]) = parseFloat "0.35"
  /\ in_unit_interval
       (Volume.initial_volume "vaporPlayerVolume"
          (Some [("vaporPlayerVolume", "0.35")])) = true.
Proof.
  split; [| split].
  - apply (proj1 (initial_volume_read_back "vaporPlayerVolume" [])).
    left. reflexivity.
  - apply (proj1 (proj2 (initial_volume_read_back "vaporPlayerVolume"
             [("vaporPlayerVolume", "0.35")]))).
    + reflexivity.
    + discriminate.
  - apply (proj1 (proj2 (proj2 (initial_volume_read_back "vaporPlayerVolume"
             [("vaporPlayerVolume", "0.35")]))) 35%nat).
    + lia.
    + reflexivity.
Defined.

(** ** Players: how the handlers act on the state *)

Import Player.

(** Case analysis on the innermost scrutinee first, so that the equation
    of a branch is there when the enclosing one is reduced. *)
Ltac break_match :=
  match goal with
  | |- context [match ?x with _ => _ end] =>
      lazymatch x with
      | context [match _ with _ => _ end] => fail
      | _ => destruct x eqn:?
      end
  end.

Ltac use_equations :=
  repeat match goal with
         | H : ?x = _ |- context [?x] => rewrite H
         end.

Ltac split_cases :=
  repeat (cbn -[Z.add Z.sub firstn String.append]; use_equations;
          try break_match).

Ltac by_cases := split_cases; try reflexivity; try congruence.

Ltac unfold_handlers :=
  unfold step, startPlayback, togglePlayPause, play_settled, toggleMute,
    handleVolumeChange, tick,
    fetch_settled, onmessage, onerror, onEnded, onError, receive, catch_log,
    fetchInitialMetadata, update_track, setCurrentTrack, setIsPlaying,
    run_effect, fetchAndUpdateTrack, bind.

Section EffectFacts.

Variable tr : transport.

(** Running the metadata effect again touches the subscription only, and
    the new run captures the track of the render. *)
Lemma run_effect_frame (s : state) :
  isPlaying (run_effect tr s) = isPlaying s
  /\ currentTrack (run_effect tr s) = currentTrack s
  /\ lastTrackRef (run_effect tr s) = lastTrackRef s
  /\ trackHistory (run_effect tr s) = trackHistory s
  /\ playbackTime (run_effect tr s) = playbackTime s
  /\ console (run_effect tr s) = console s
  /\ c_currentTrack (effect (run_effect tr s)) = currentTrack s.
Proof.
  unfold run_effect, fetchAndUpdateTrack.
  destruct tr, (isPlaying s) eqn:E; cbn; rewrite ?E; cbn; auto 10.
Qed.

Lemma currentTrack_setCurrentTrack (data : json) (s : state) :
  currentTrack (setCurrentTrack tr data s) = Some data.
Proof.
  unfold setCurrentTrack.
  now rewrite (proj1 (proj2 (run_effect_frame _))).
Qed.

Lemma lastTrackRef_setCurrentTrack (data : json) (s : state) :
  lastTrackRef (setCurrentTrack tr data s) = lastTrackRef s.
Proof.
  unfold setCurrentTrack.
  now rewrite (proj1 (proj2 (proj2 (run_effect_frame _)))).
Qed.

Lemma trackHistory_setCurrentTrack (data : json) (s : state) :
  trackHistory (setCurrentTrack tr data s) = trackHistory s.
Proof.
  unfold setCurrentTrack.
  now rewrite (proj1 (proj2 (proj2 (proj2 (run_effect_frame _))))).
Qed.

Lemma in_sync_setCurrentTrack (data : json) (s : state) :
  in_sync (setCurrentTrack tr data s).
Proof.
  unfold in_sync, setCurrentTrack.
  destruct (run_effect_frame (with_currentTrack (Some data) s))
    as (_ & Hc & _ & _ & _ & _ & He).
  now rewrite Hc, He.
Qed.

End EffectFacts.

Section DetectionFacts.

Variable tr : transport.

Lemma has_artist_and_title_non_null (data : json) :
  data <> JNull -> has_artist_and_title data = Normal (valid data).
Proof.
  intros Hnn. unfold valid, has_artist_and_title.
  destruct data; try contradiction; cbn;
    try reflexivity.
  destruct (truthy (lookup "artist" fields)); reflexivity.
Qed.

Lemma valid_non_null (data : json) : valid data = true -> data <> JNull.
Proof. intros H ->. discriminate. Qed.

(** A body with a missing or empty field is not valid. *)
Lemma incomplete_invalid (data : json) :
  missing_or_empty data "artist" \/ missing_or_empty data "title" ->
  valid data = false.
Proof.
  unfold missing_or_empty, valid, has_artist_and_title.
  destruct data; try reflexivity. cbn.
  intros [[H|H]|[H|H]]; rewrite H; cbn;
    try reflexivity;
    destruct (truthy (lookup "artist" fields)); reflexivity.
Qed.

Lemma update_track_detects (c : closure) (now : Z) (data : json) (s : state) :
  data <> JNull ->
  update_track tr c now data s
  = Normal (if detects data s then after_change tr c now data s else s).
Proof.
  intros Hnn. unfold update_track, detects.
  rewrite (has_artist_and_title_non_null data Hnn). cbn [bind].
  destruct (valid data); cbn [andb]; [|reflexivity].
  destruct (differs (lastTrackRef s) (trackId data)); [|reflexivity].
  unfold after_change, entry_of.
  destruct (c_currentTrack c); reflexivity.
Qed.

Lemma receive_detects (c : closure) (now : Z) (data : json) (s : state) :
  data <> JNull ->
  receive tr c now (Some data) s
  = if detects data s then after_change tr c now data s else s.
Proof.
  intros Hnn. unfold receive.
  rewrite !(update_track_detects _ _ _ _ Hnn).
  destruct tr; reflexivity.
Qed.

Lemma detects_valid (data : json) (s : state) :
  detects data s = true -> valid data = true.
Proof. unfold detects. intros H. apply andb_true_iff in H. tauto. Qed.

Lemma differs_false_iff (last : option string) (id : string) :
  differs last id = false <-> last = Some id.
Proof.
  destruct last as [l|]; cbn.
  - rewrite negb_false_iff, String.eqb_eq. split; congruence.
  - split; discriminate.
Qed.

Lemma currentTrack_after_change c now data s :
  currentTrack (after_change tr c now data s) = Some data.
Proof. apply currentTrack_setCurrentTrack. Qed.

Lemma lastTrackRef_after_change c now data s :
  lastTrackRef (after_change tr c now data s) = Some (trackId data).
Proof.
  unfold after_change. rewrite lastTrackRef_setCurrentTrack. reflexivity.
Qed.

Lemma trackHistory_after_change c now data s :
  trackHistory (after_change tr c now data s)
  = match c_currentTrack c with
    | Some t => firstn 3 (entry_of now t :: trackHistory s)
    | None => trackHistory s
    end.
Proof.
  unfold after_change. rewrite trackHistory_setCurrentTrack.
  destruct (c_currentTrack c); reflexivity.
Qed.

Lemma in_sync_after_change c now data s :
  in_sync (after_change tr c now data s).
Proof. apply in_sync_setCurrentTrack. Qed.

(** Once a body has been taken in, the same body is no change. *)
Lemma detects_after_change c now data s :
  detects data (after_change tr c now data s) = false.
Proof.
  unfold detects. rewrite lastTrackRef_after_change.
  rewrite (proj2 (differs_false_iff _ _) eq_refl).
  apply andb_false_r.
Qed.

End DetectionFacts.

(** ** Track identity *)

(** C5, as stated, fails: the identity of a track joins artist and title
    with a hyphen, not with NUL. *)
Lemma trackId_not_NUL_delimited :
  trackId (track "A" "B") = "A-B"
  /\ trackId (track "A" "B") <> "A" ++ NUL ++ "B".
Proof. split; [reflexivity | discriminate]. Qed.

(** With the hyphen, two different tracks can share their identity. *)
Remark trackId_collision :
  track "a-b" "c" <> track "a" "b-c"
  /\ trackId (track "a-b" "c") = trackId (track "a" "b-c").
Proof. split; [discriminate | reflexivity]. Qed.

(** C5, amended: the identity of a track with string fields is
    artist + "-" + title, and once a track has been taken in, a valid body
    counts as the same track exactly when its identity is the same. *)
Theorem trackId_hyphenated (data : json) (a t : string) :
  prop data "artist" = Some (JStr a) ->
  prop data "title" = Some (JStr t) ->
  trackId data = a ++ "-" ++ t
  /\ forall tr c now s other,
       valid other = true ->
       (detects other (after_change tr c now data s) = false
        <-> trackId other = trackId data).
Proof.
  intros Ha Ht. split.
  - unfold trackId. rewrite Ha, Ht. reflexivity.
  - intros tr c now s other Hv. unfold detects.
    rewrite Hv, lastTrackRef_after_change. cbn [andb].
    rewrite differs_false_iff. split; congruence.
Qed.

Lemma trackId_hyphenated_witness :
  trackId (track "Kraftwerk" "Computer Love") = "Kraftwerk-Computer Love"
  /\ (detects (track "Kraftwerk" "Computer Love")
        (after_change Pull (mkClosure 0 true None) 5000
           (track "Kraftwerk" "Computer Love") (mount (Finite (7 # 10))))
      = false
      <-> trackId (track "Kraftwerk" "Computer Love")
          = trackId (track "Kraftwerk" "Computer Love")).
Proof.
  destruct (trackId_hyphenated (track "Kraftwerk" "Computer Love")
              "Kraftwerk" "Computer Love" eq_refl eq_refl) as [Hid Hsame].
  split.
  - exact Hid.
  - apply Hsame. reflexivity.
Defined.

(** ** Incomplete bodies *)

(** C10: a body whose artist or title is missing or empty is ignored by
    every handler: the track update leaves the whole state as it is (track,
    last identity, history, console), and so does the initial fetch. *)
Theorem incomplete_body_ignored (tr : transport) (c : closure) (now : Z)
  (data : json) (s : state) :
  data <> JNull ->
  missing_or_empty data "artist" \/ missing_or_empty data "title" ->
  update_track tr c now data s = Normal s
  /\ receive tr c now (Some data) s = s
  /\ fetchInitialMetadata tr data s = Normal s
  /\ step Push s (Message now (Some data)) = s
  /\ (forall i,
        let s' := step Pull s (FetchSettled i now (Some data)) in
        currentTrack s' = currentTrack s
        /\ lastTrackRef s' = lastTrackRef s
        /\ trackHistory s' = trackHistory s
        /\ console s' = console s).
Proof.
  intros Hnn Hinc.
  pose proof (incomplete_invalid data Hinc) as Hv.
  assert (Hd : forall s0, detects data s0 = false)
    by (intros s0; unfold detects; rewrite Hv; reflexivity).
  assert (Hr : forall tr0 c0 s0, receive tr0 c0 now (Some data) s0 = s0)
    by (intros; rewrite receive_detects, Hd by exact Hnn; reflexivity).
  split; [| split; [| split; [| split]]].
  - rewrite update_track_detects, Hd by exact Hnn. reflexivity.
  - apply Hr.
  - unfold fetchInitialMetadata.
    rewrite has_artist_and_title_non_null, Hv by exact Hnn. reflexivity.
  - cbn [step]. unfold onmessage.
    destruct (eventSourceRef s); [apply Hr | reflexivity].
  - intros i. cbn [step]. unfold fetch_settled.
    destruct (nth_error (pending s) i); [rewrite Hr|]; cbn; auto.
Qed.

Lemma incomplete_body_ignored_witness :
  let s := run Push (mount (Finite (7 # 10)))
             [AutoplaySettled true; Message 1000 (Some (track "A" "X"))] in
  step Push s (Message 6000 (Some (JObj [("artist", JStr "B")]))) = s
  /\ step Push s (Message 6000 (Some (track "" "Y"))) = s.
Proof.
  cbv zeta. split.
  - apply (incomplete_body_ignored Push (mkClosure 0 true None) 6000
             (JObj [("artist", JStr "B")])).
    + discriminate.
    + right. left. reflexivity.
  - apply (incomplete_body_ignored Push (mkClosure 0 true None) 6000
             (track "" "Y")).
    + discriminate.
    + left. right. reflexivity.
Defined.

(** ** Change detection and the history *)

Lemma json_eq_null (x : json) : x = JNull \/ x <> JNull.
Proof. destruct x; (left; reflexivity) || (right; discriminate). Qed.

Section HistoryFacts.

Variable tr : transport.

Lemma deliver_detects (s : state) (m : Z * json) :
  snd m <> JNull ->
  deliver tr s m
  = if detects (snd m) s
    then after_change tr (effect s) (fst m) (snd m) s
    else s.
Proof. intros Hnn. unfold deliver. apply receive_detects. exact Hnn. Qed.

Lemma new_body_detected (data : json) (s : state) :
  valid data = true ->
  lastTrackRef s <> Some (trackId data) ->
  detects data s = true.
Proof.
  intros Hv Hnew. unfold detects. rewrite Hv. cbn [andb].
  destruct (differs (lastTrackRef s) (trackId data)) eqn:E;
    [reflexivity|].
  apply differs_false_iff in E. contradiction.
Qed.

(** Repeats of a body that is no change leave everything as it is. *)
Lemma repeats_ignored (data : json) (nows : list Z) (s : state) :
  data <> JNull ->
  detects data s = false ->
  detections tr s (map (fun t => (t, data)) nows)
  = repeat false (length nows)
  /\ fold_left (deliver tr) (map (fun t => (t, data)) nows) s = s.
Proof.
  intros Hnn Hd. induction nows as [|t rest [IHd IHs]]; cbn.
  - split; reflexivity.
  - rewrite deliver_detects by exact Hnn. cbn [snd]. rewrite Hd.
    split; [f_equal; exact IHd | exact IHs].
Qed.

Lemma firstn_app_firstn {A} (n : nat) (l r : list A) :
  firstn n (l ++ firstn n r) = firstn n (l ++ r).
Proof.
  rewrite !firstn_app, firstn_firstn.
  f_equal. f_equal. lia.
Qed.

Lemma last_cons {A} (l : list A) (x d : A) : last (x :: l) d = last l x.
Proof.
  revert x d. induction l as [|a l IH]; intros x d.
  - reflexivity.
  - change (last (x :: a :: l) d) with (last (a :: l) d).
    rewrite !IH. reflexivity.
Qed.

Lemma length_superseded (current : option json) (ms : list (Z * json)) :
  length (superseded current ms)
  = match current with
    | Some _ => length ms
    | None => Nat.pred (length ms)
    end.
Proof.
  revert current. induction ms as [|m rest IH]; intros current.
  - destruct current; reflexivity.
  - cbn [superseded]. rewrite length_app, IH.
    destruct current; cbn; lia.
Qed.

(** The history after a row of transitions, and the track then current. *)
Lemma history_after_transitions (ms : list (Z * json)) (s : state) :
  in_sync s ->
  (length (trackHistory s) <= 3)%nat ->
  transitions (lastTrackRef s) ms = true ->
  trackHistory (fold_left (deliver tr) ms s)
  = firstn 3 (rev (superseded (currentTrack s) ms) ++ trackHistory s)
  /\ currentTrack (fold_left (deliver tr) ms s)
     = last (map (fun m => Some (snd m)) ms) (currentTrack s).
Proof.
  revert s. induction ms as [|m rest IH]; intros s Hsync Hlen Htr.
  - cbn [fold_left superseded rev app map last]. split; [|reflexivity].
    symmetry. apply firstn_all2. exact Hlen.
  - cbn [transitions] in Htr.
    apply andb_true_iff in Htr. destruct Htr as [Htr Hrest].
    apply andb_true_iff in Htr. destruct Htr as [Hv Hd].
    pose proof (valid_non_null _ Hv) as Hnn.
    cbn [fold_left]. rewrite deliver_detects by exact Hnn.
    unfold detects. rewrite Hv, Hd. cbn [andb].
    set (s1 := after_change tr (effect s) (fst m) (snd m) s).
    assert (Hh1 : trackHistory s1
                  = match currentTrack s with
                    | Some t => firstn 3 (entry_of (fst m) t :: trackHistory s)
                    | None => trackHistory s
                    end).
    { unfold s1. rewrite trackHistory_after_change, Hsync. reflexivity. }
    destruct (IH s1) as [IHh IHc].
    + apply in_sync_after_change.
    + rewrite Hh1. destruct (currentTrack s); [|exact Hlen].
      rewrite length_firstn. lia.
    + unfold s1. rewrite lastTrackRef_after_change. exact Hrest.
    + rewrite IHh, IHc. unfold s1.
      rewrite currentTrack_after_change. fold s1. rewrite Hh1.
      split.
      * cbn [superseded]. rewrite rev_app_distr, <- app_assoc.
        destruct (currentTrack s); cbn [rev app].
        -- apply firstn_app_firstn.
        -- reflexivity.
      * cbn [map]. symmetry. apply last_cons.
Qed.

(** One delivery prepends at most the track that was current and keeps
    the older entries in their order. *)
Lemma history_step (s : state) (m : Z * json) :
  in_sync s ->
  trackHistory (deliver tr s m) = trackHistory s
  \/ exists t,
       currentTrack s = Some t
       /\ detects (snd m) s = true
       /\ trackHistory (deliver tr s m)
          = firstn 3 (entry_of (fst m) t :: trackHistory s).
Proof.
  intros Hsync. unfold deliver, receive, catch_log.
  destruct (json_eq_null (snd m)) as [E|Hnn].
  - left. rewrite E. destruct tr; by_cases.
  - rewrite !update_track_detects by exact Hnn.
    assert (Hsame : match tr with
                    | Pull => if detects (snd m) s
                              then after_change tr (effect s) (fst m) (snd m) s
                              else s
                    | Push => if detects (snd m) s
                              then after_change tr (effect s) (fst m) (snd m) s
                              else s
                    end
                    = if detects (snd m) s
                      then after_change tr (effect s) (fst m) (snd m) s
                      else s) by (destruct tr; reflexivity).
    rewrite Hsame. destruct (detects (snd m) s) eqn:Hd; [|left; reflexivity].
    rewrite trackHistory_after_change, Hsync.
    destruct (currentTrack s) as [t|]; [right | left; reflexivity].
    exists t. auto.
Qed.

End HistoryFacts.

(** C7: the same valid body delivered N = 1 + |nows| times in a row is
    detected as a change at most at its first delivery, never at one of
    the N-1 repeats, which leave the state as the first delivery left it;
    when the body is new with respect to the last identity seen, it is
    detected exactly once, at its first delivery, which makes it the
    current track and archives the track that was current. *)
Theorem repeated_body_detected_once (tr : transport) (s : state)
  (data : json) (now : Z) (nows : list Z) :
  valid data = true ->
  let ms := map (fun t => (t, data)) (now :: nows) in
  detections tr s ms = detects data s :: repeat false (length nows)
  /\ fold_left (deliver tr) ms s = deliver tr s (now, data)
  /\ (lastTrackRef s <> Some (trackId data) ->
      detections tr s ms = true :: repeat false (length nows)
      /\ count_occ bool_dec (detections tr s ms) true = 1%nat
      /\ currentTrack (fold_left (deliver tr) ms s) = Some data
      /\ lastTrackRef (fold_left (deliver tr) ms s) = Some (trackId data)
      /\ trackHistory (fold_left (deliver tr) ms s)
         = match c_currentTrack (effect s) with
           | Some t => firstn 3 (entry_of now t :: trackHistory s)
           | None => trackHistory s
           end).
Proof.
  intros Hv ms.
  pose proof (valid_non_null _ Hv) as Hnn.
  assert (H1 : deliver tr s (now, data)
               = if detects data s
                 then after_change tr (effect s) now data s
                 else s)
    by (rewrite deliver_detects by exact Hnn; reflexivity).
  assert (Hquiet : detects data (deliver tr s (now, data)) = false).
  { rewrite H1. destruct (detects data s) eqn:Hd;
      [apply detects_after_change | exact Hd]. }
  destruct (repeats_ignored tr data nows (deliver tr s (now, data))
              Hnn Hquiet) as [Hrep Hfix].
  assert (Hdet : detections tr s ms
                 = detects data s :: repeat false (length nows)).
  { unfold ms. cbn [map detections snd]. rewrite Hrep. reflexivity. }
  assert (Hrun : fold_left (deliver tr) ms s = deliver tr s (now, data)).
  { unfold ms. cbn [map fold_left]. exact Hfix. }
  split; [exact Hdet|]. split; [exact Hrun|].
  intros Hnew.
  pose proof (new_body_detected data s Hv Hnew) as Hd.
  rewrite Hdet, Hrun, H1, Hd.
  split; [reflexivity|]. split.
  { cbn [count_occ]. destruct (bool_dec true true); [|congruence].
    rewrite count_occ_repeat_neq by discriminate. reflexivity. }
  split; [apply currentTrack_after_change|].
  split; [apply lastTrackRef_after_change|].
  apply trackHistory_after_change.
Qed.

Lemma repeated_body_detected_once_witness :
  let s := run Pull (mount (Finite (7 # 10)))
             [AutoplaySettled true; FetchSettled 0 500 (Some (track "Z" "W"))]
  in
  let ms := map (fun t => (t, track "A" "X")) [1000; 6000; 11000] in
  detections Pull s ms = [true; false; false]
  /\ count_occ bool_dec (detections Pull s ms) true = 1%nat
  /\ currentTrack (fold_left (deliver Pull) ms s) = Some (track "A" "X")
  /\ lastTrackRef (fold_left (deliver Pull) ms s) = Some "A-X"
  /\ trackHistory (fold_left (deliver Pull) ms s)
     = [entry_of 1000 (track "Z" "W")].
Proof.
  apply (repeated_body_detected_once Pull
           (run Pull (mount (Finite (7 # 10)))
              [AutoplaySettled true;
               FetchSettled 0 500 (Some (track "Z" "W"))])
           (track "A" "X") 1000 [6000; 11000]).
  - reflexivity.
  - discriminate.
Defined.

(** As long as every body is handled by the live run of the effect, a row
    of track transitions leaves the three most recently superseded tracks
    in the history, most recent first (with four transitions or more,
    exactly three of them, whatever was there before); one delivery
    prepends at most the track that was current just before and keeps the
    older entries in their order; the first track observed, which
    supersedes nothing, adds no entry. *)
Lemma history_keeps_last_three (tr : transport) (s : state)
  (ms : list (Z * json)) :
  in_sync s ->
  (length (trackHistory s) <= 3)%nat ->
  transitions (lastTrackRef s) ms = true ->
  let s' := fold_left (deliver tr) ms s in
  trackHistory s'
  = firstn 3 (rev (superseded (currentTrack s) ms) ++ trackHistory s)
  /\ ((4 <= length ms)%nat ->
      trackHistory s' = firstn 3 (rev (superseded (currentTrack s) ms))
      /\ length (trackHistory s') = 3%nat)
  /\ (forall m rest, ms = m :: rest -> currentTrack s = None ->
        trackHistory (deliver tr s m) = trackHistory s)
  /\ (forall s0 m, in_sync s0 ->
        trackHistory (deliver tr s0 m) = trackHistory s0
        \/ exists t,
             currentTrack s0 = Some t
             /\ detects (snd m) s0 = true
             /\ trackHistory (deliver tr s0 m)
                = firstn 3 (entry_of (fst m) t :: trackHistory s0)).
Proof.
  intros Hsync Hlen Htr s'.
  destruct (history_after_transitions tr ms s Hsync Hlen Htr) as [Hh _].
  fold s' in Hh.
  split; [exact Hh|]. split; [|split].
  - intros Hfour.
    assert (Hsup : (3 <= length (rev (superseded (currentTrack s) ms)))%nat).
    { rewrite length_rev, length_superseded.
      destruct (currentTrack s); lia. }
    assert (Hcut : trackHistory s'
                   = firstn 3 (rev (superseded (currentTrack s) ms))).
    { rewrite Hh, firstn_app.
      replace (3 - length (rev (superseded (currentTrack s) ms)))%nat
        with 0%nat by lia.
      cbn [firstn]. apply app_nil_r. }
    split; [exact Hcut|].
    rewrite Hcut. apply firstn_length_le. exact Hsup.
  - intros m rest _ Hnone.
    destruct (history_step tr s m Hsync) as [H|(t & Ht & _)];
      [exact H | congruence].
  - intros s0 m Hs0. apply history_step. exact Hs0.
Qed.

Lemma history_keeps_last_three_witness :
  let s := run Push (mount (Finite (7 # 10))) [AutoplaySettled true] in
  let ms := [(1000, track "A" "1"); (2000, track "B" "2");
             (3000, track "C" "3"); (4000, track "D" "4");
             (5000, track "E" "5")] in
  trackHistory (fold_left (deliver Push) ms s)
  = [entry_of 5000 (track "D" "4"); entry_of 4000 (track "C" "3");
     entry_of 3000 (track "B" "2")]
  /\ length (trackHistory (fold_left (deliver Push) ms s)) = 3%nat.
Proof.
  apply (history_keeps_last_three Push
           (run Push (mount (Finite (7 # 10))) [AutoplaySettled true])
           [(1000, track "A" "1"); (2000, track "B" "2");
            (3000, track "C" "3"); (4000, track "D" "4");
            (5000, track "E" "5")]).
  - reflexivity.
  - cbn. lia.
  - reflexivity.
  - cbn. lia.
Defined.

(** ** Subscription and play state *)

Lemma release_olist (h : option nat) : release h (olist h) = [].
Proof.
  destruct h as [x|]; cbn; [|reflexivity].
  rewrite Nat.eqb_refl. reflexivity.
Qed.

Ltac frame :=
  unfold untouched, live_handles, subscription; cbn;
  repeat split; reflexivity.

Lemma untouched_refl (tr : transport) (s : state) : untouched tr s s.
Proof. frame. Qed.

Lemma untouched_log (tr : transport) (msg : string) (s : state) :
  untouched tr s (log msg s).
Proof. destruct tr; frame. Qed.

Lemma untouched_trans (tr : transport) (s s1 s2 : state) :
  untouched tr s s1 -> untouched tr s1 s2 -> untouched tr s s2.
Proof.
  unfold untouched.
  intros (H1 & H2 & H3 & H4 & H5) (K1 & K2 & K3 & K4 & K5).
  repeat split; congruence.
Qed.

Lemma resubscribed_untouched (tr : transport) (s1 s2 : state) :
  resubscribed tr s1 -> untouched tr s1 s2 -> resubscribed tr s2.
Proof.
  unfold resubscribed, untouched.
  intros (R1 & R2 & R3) (K1 & K2 & K3 & K4 & K5).
  rewrite K1, K2, K3, K4, K5. auto.
Qed.

(** Cleanup and a new run leave exactly the new subscription alive, and
    there is one exactly while playing. *)
Lemma run_effect_resubscribed (tr : transport) (s : state) :
  live_handles s = olist (subscription tr s) ->
  resubscribed tr (run_effect tr s).
Proof.
  unfold resubscribed, live_handles, subscription, run_effect,
    fetchAndUpdateTrack.
  intros H.
  destruct tr, (isPlaying s) eqn:E; cbn; rewrite ?E; cbn;
    rewrite H, release_olist; repeat split; congruence.
Qed.

Lemma settled_untouched (tr : transport) (s s1 s2 : state) :
  settled tr s s1 -> untouched tr s1 s2 -> settled tr s s2.
Proof.
  intros [U|R] K.
  - left. exact (untouched_trans _ _ _ _ U K).
  - right. exact (resubscribed_untouched _ _ _ R K).
Qed.

Lemma untouched_settled (tr : transport) (s s1 s2 : state) :
  untouched tr s s1 -> settled tr s1 s2 -> settled tr s s2.
Proof.
  intros U [K|R].
  - left. exact (untouched_trans _ _ _ _ U K).
  - right. exact R.
Qed.

Lemma setIsPlaying_settled (tr : transport) (b : bool) (s : state) :
  live_handles s = olist (subscription tr s) ->
  settled tr s (setIsPlaying tr b s).
Proof.
  intros H. unfold setIsPlaying.
  destruct (Bool.eqb (isPlaying s) b).
  - left. apply untouched_refl.
  - right. apply run_effect_resubscribed. destruct tr; exact H.
Qed.

Lemma setCurrentTrack_resubscribed (tr : transport) (data : json)
  (s : state) :
  live_handles s = olist (subscription tr s) ->
  resubscribed tr (setCurrentTrack tr data s).
Proof.
  intros H. unfold setCurrentTrack. apply run_effect_resubscribed.
  destruct tr; exact H.
Qed.

Lemma after_change_resubscribed (tr : transport) (c : closure) (now : Z)
  (data : json) (s : state) :
  live_handles s = olist (subscription tr s) ->
  resubscribed tr (after_change tr c now data s).
Proof.
  intros H. unfold after_change. apply setCurrentTrack_resubscribed.
  destruct tr, (c_currentTrack c); exact H.
Qed.

(** A failed request, an unparsable message and a [null] body end in the
    [catch], which at most logs. *)
Lemma receive_failed_untouched (tr : transport) (c : closure) (now : Z)
  (s : state) :
  untouched tr s (receive tr c now None s)
  /\ untouched tr s (receive tr c now (Some JNull) s).
Proof.
  unfold receive.
  destruct tr; cbn; [destruct (isUnmounted c s)|]; split; frame.
Qed.

Lemma receive_settled (tr : transport) (c : closure) (now : Z)
  (body : option json) (s : state) :
  live_handles s = olist (subscription tr s) ->
  settled tr s (receive tr c now body s).
Proof.
  intros H. destruct body as [data|].
  - destruct (json_eq_null data) as [->|Hnn].
    + left. apply receive_failed_untouched.
    + rewrite receive_detects by exact Hnn.
      destruct (detects data s).
      * right. apply after_change_resubscribed. exact H.
      * left. apply untouched_refl.
  - left. apply receive_failed_untouched.
Qed.

Lemma fetchInitialMetadata_settled (tr : transport) (body : option json)
  (s : state) :
  live_handles s = olist (subscription tr s) ->
  settled tr s
    (catch_log "Error fetching initial metadata:" false s
       match body with
       | Some data => fetchInitialMetadata tr data s
       | None => Throw "fetch"
       end).
Proof.
  intros H. destruct body as [data|]; [|left; apply untouched_log].
  destruct (json_eq_null data) as [->|Hnn]; [left; apply untouched_log|].
  unfold fetchInitialMetadata.
  rewrite has_artist_and_title_non_null by exact Hnn. cbn [bind].
  destruct (valid data); cbn [catch_log]; [|left; apply untouched_refl].
  right.
  apply (resubscribed_untouched tr (setCurrentTrack tr data s)).
  - apply setCurrentTrack_resubscribed. exact H.
  - destruct tr; frame.
Qed.

(** What an event can do to the subscription. *)
Lemma step_shape (tr : transport) (s : state) (e : event) :
  live_handles s = olist (subscription tr s) ->
  settled tr s (step tr s e)
  \/ (tr = Push /\ e = TransportError /\ disconnected s (step tr s e)).
Proof.
  intros H. destruct e; cbn [step].
  - (* AutoplaySettled *)
    left. unfold startPlayback.
    destruct (autoplayPending s); [|left; apply untouched_refl].
    destruct resolved.
    + apply (untouched_settled tr s
               (with_promises false (initialPending s) (playsPending s) s));
        [destruct tr; frame|].
      apply setIsPlaying_settled. destruct tr; exact H.
    + apply (untouched_settled tr s
               (log "Autoplay failed:"
                  (with_promises false (initialPending s)
                     (playsPending s) s)));
        [destruct tr; frame|].
      apply setIsPlaying_settled. destruct tr; exact H.
  - (* InitialMetadata *)
    left. destruct (initialPending s); [|left; apply untouched_refl].
    apply (untouched_settled tr s
             (with_promises (autoplayPending s) false (playsPending s) s));
      [destruct tr; frame|].
    apply fetchInitialMetadata_settled. destruct tr; exact H.
  - (* TogglePlayPause *)
    left. unfold togglePlayPause.
    destruct (audioRef s); [|left; apply untouched_refl].
    destruct (isPlaying s) eqn:E.
    + apply setIsPlaying_settled. exact H.
    + apply (untouched_settled tr s
               (with_promises (autoplayPending s) (initialPending s)
                  (S (playsPending s)) s));
        [destruct tr; frame|].
      apply setIsPlaying_settled. destruct tr; exact H.
  - (* PlaySettled *)
    left. left. unfold play_settled.
    destruct (playsPending s); [apply untouched_refl|].
    destruct resolved, tr; frame.
  - (* ToggleMute *) left. left. destruct tr; frame.
  - (* VolumeChange *) left. left. destruct tr; frame.
  - (* Tick *)
    left. left. unfold tick.
    destruct (isPlaying s) eqn:E; [|apply untouched_refl].
    unfold untouched, live_handles, subscription.
    destruct tr; cbn; auto.
  - (* PollTick *)
    left. left. unfold fetchAndUpdateTrack.
    destruct tr; [|apply untouched_refl].
    destruct (pollingInterval s) eqn:E; [|apply untouched_refl].
    destruct (negb (c_isPlaying (effect s))); [apply untouched_refl|].
    unfold untouched, live_handles, subscription. cbn. auto.
  - (* FetchSettled *)
    left. destruct tr; [|left; apply untouched_refl].
    unfold fetch_settled.
    destruct (nth_error (pending s) i) as [c|];
      [|left; apply untouched_refl].
    apply (untouched_settled Pull s
             (with_pending (remove_nth i (pending s)) s)); [frame|].
    apply receive_settled. exact H.
  - (* Message *)
    left. destruct tr; [left; apply untouched_refl|].
    unfold onmessage.
    destruct (eventSourceRef s); [|left; apply untouched_refl].
    apply receive_settled. exact H.
  - (* TransportError *)
    destruct tr; [left; left; apply untouched_refl|].
    unfold onerror. destruct (eventSourceRef s) as [h|] eqn:E.
    + right. repeat split; try reflexivity.
      unfold disconnected. rewrite E. cbn. auto.
    + left. left. apply untouched_refl.
  - (* Ended *)
    left. unfold onEnded.
    apply (settled_untouched tr s (setIsPlaying tr false s)).
    + apply setIsPlaying_settled. exact H.
    + destruct tr; frame.
  - (* AudioError *)
    left. unfold onError.
    apply (settled_untouched tr s (setIsPlaying tr false s)).
    + apply setIsPlaying_settled. exact H.
    + destruct tr; frame.
Qed.

(** What an event can do to the history. *)
Lemma step_history (tr : transport) (s : state) (e : event) :
  trackHistory (step tr s e) = trackHistory s
  \/ exists x, trackHistory (step tr s e) = firstn 3 (x :: trackHistory s).
Proof.
  destruct e; unfold_handlers; destruct tr; split_cases;
    first [ left; reflexivity | right; eexists; reflexivity ].
Qed.

Section Invariants.

Variable tr : transport.

Lemma run_snoc (s : state) (es : list event) (e : event) :
  run tr s (es ++ [e]) = step tr (run tr s es) e.
Proof. unfold run. rewrite fold_left_app. reflexivity. Qed.

Lemma step_subscribed (s : state) (e : event) :
  subscribed tr s -> in_sync s ->
  subscribed tr (step tr s e) /\ in_sync (step tr s e).
Proof.
  unfold subscribed, in_sync. intros [Hh Hp] Hsync.
  destruct (step_shape tr s e Hh)
    as [[(Uh & Us & Up & Ue & Uc) | (Rh & Rp & Rc)] | (Htr & _ & D)].
  - rewrite Uh, Us, Up, Ue, Uc. auto.
  - repeat split; [exact Rh | apply Rp | exact Rc].
  - destruct D as (Dh & Dr & Dp & De & Dc).
    unfold subscription in *. rewrite Htr in *.
    rewrite Dh, Dr, De, Dc, Hh, release_olist.
    repeat split; [congruence | exact Hsync].
Qed.

(** Leaving transport errors aside, a playing player holds a
    subscription. *)
Lemma step_playing_subscribed (s : state) (e : event) :
  tr = Pull \/ e <> TransportError ->
  subscribed tr s ->
  (isPlaying s = true -> subscription tr s <> None) ->
  isPlaying (step tr s e) = true -> subscription tr (step tr s e) <> None.
Proof.
  intros Hno [Hh _] Hfull.
  destruct (step_shape tr s e Hh)
    as [[(_ & Us & Up & _) | (_ & Rp & _)] | (Htr & He & _)].
  - rewrite Us, Up. exact Hfull.
  - apply Rp.
  - destruct Hno; congruence.
Qed.

Lemma reachable_invariant (v : number) (es : list event) :
  subscribed tr (run tr (mount v) es)
  /\ in_sync (run tr (mount v) es)
  /\ (length (trackHistory (run tr (mount v) es)) <= 3)%nat.
Proof.
  induction es as [|e es (Hsub & Hsync & Hlen)] using rev_ind.
  - unfold subscribed, in_sync. destruct tr; cbn; repeat split;
      congruence || lia.
  - rewrite run_snoc.
    destruct (step_subscribed _ e Hsub Hsync) as [Hsub' Hsync'].
    repeat split; try apply Hsub'; try exact Hsync'.
    destruct (step_history tr (run tr (mount v) es) e) as [H|[x H]];
      rewrite H; [exact Hlen|].
    rewrite length_firstn. lia.
Qed.

Lemma reachable_playing_subscribed (v : number) (es : list event) :
  tr = Pull \/ ~ In TransportError es ->
  isPlaying (run tr (mount v) es) = true ->
  subscription tr (run tr (mount v) es) <> None.
Proof.
  induction es as [|e es IH] using rev_ind; intros Hno.
  - cbn. discriminate.
  - rewrite run_snoc.
    apply step_playing_subscribed.
    + destruct Hno as [H|H]; [left; exact H | right].
      intros ->. apply H. apply in_or_app. right. left. reflexivity.
    + apply reachable_invariant.
    + apply IH. destruct Hno as [H|H]; [left; exact H | right].
      intros Hin. apply H. apply in_or_app. left. exact Hin.
Qed.

End Invariants.

(** C4, as stated, fails for the push transport: after a transport error
    the player is still playing and holds no event source. *)
Lemma playing_without_subscription :
  let s := run Push (mount (Finite (7 # 10)))
             [AutoplaySettled true; TransportError] in
  reachable Push s
  /\ isPlaying s = true
  /\ length (live_handles s) = 0%nat.
Proof.
  cbv zeta. split; [|split; reflexivity].
  exists (Finite (7 # 10)), [AutoplaySettled true; TransportError].
  reflexivity.
Qed.

Lemma run_app (tr : transport) (s : state) (es1 es2 : list event) :
  run tr s (es1 ++ es2) = run tr (run tr s es1) es2.
Proof. unfold run. apply fold_left_app. Qed.

(** Whenever playing meant subscribed at some point of a run, it still
    does as long as no transport error has come since. *)
Lemma playing_subscribed_since (tr : transport) (v : number)
  (es1 es2 : list event) :
  ~ In TransportError es2 ->
  (isPlaying (run tr (mount v) es1) = true ->
   subscription tr (run tr (mount v) es1) <> None) ->
  isPlaying (run tr (mount v) (es1 ++ es2)) = true ->
  subscription tr (run tr (mount v) (es1 ++ es2)) <> None.
Proof.
  induction es2 as [|e es2 IH] using rev_ind; intros Hno Hthen.
  - rewrite app_nil_r. exact Hthen.
  - rewrite app_assoc, run_snoc.
    apply step_playing_subscribed.
    + right. intros ->. apply Hno. apply in_or_app. right. left. reflexivity.
    + apply reachable_invariant.
    + apply IH; [|exact Hthen].
      intros Hin. apply Hno. apply in_or_app. left. exact Hin.
Qed.

Lemma length_olist (h : option nat) :
  (length (olist h) <= 1)%nat
  /\ (length (olist h) = 1%nat <-> h <> None).
Proof.
  destruct h; cbn; split; try lia; split; congruence.
Qed.

(** C4, amended: in every reachable state at most one subscription is
    live, and one is live only while the player is playing.  Every event
    either leaves the subscription and the play state as they are, or makes
    the effect run again, after which a subscription is live exactly if the
    player is playing, or, in the push player, is a transport error that
    closes the live event source and leaves the player playing.  So with
    the poll timer a subscription is live whenever the player is playing,
    and with either transport it is whenever playing meant subscribed at
    some point of the run and no transport error has come since. *)
Theorem subscription_follows_playing (tr : transport) (v : number)
  (es : list event) :
  let s := run tr (mount v) es in
  (length (live_handles s) <= 1)%nat
  /\ (length (live_handles s) = 1%nat -> isPlaying s = true)
  /\ (tr = Pull -> isPlaying s = true -> length (live_handles s) = 1%nat)
  /\ (forall es1 es2,
        es = (es1 ++ es2)%list ->
        ~ In TransportError es2 ->
        (isPlaying (run tr (mount v) es1) = true ->
         length (live_handles (run tr (mount v) es1)) = 1%nat) ->
        isPlaying s = true -> length (live_handles s) = 1%nat)
  /\ (forall e,
        let s' := step tr s e in
        (live_handles s' = live_handles s /\ isPlaying s' = isPlaying s)
        \/ ((length (live_handles s') <= 1)%nat
            /\ (length (live_handles s') = 1%nat <-> isPlaying s' = true))
        \/ (tr = Push /\ e = TransportError
            /\ length (live_handles s) = 1%nat
            /\ live_handles s' = []
            /\ isPlaying s' = true)).
Proof.
  intros s.
  destruct (reachable_invariant tr v es) as ([Hh Hp] & _ & _).
  fold s in Hh, Hp.
  destruct (length_olist (subscription tr s)) as [Hle Hone].
  split; [rewrite Hh; exact Hle|].
  split; [rewrite Hh; intros H; apply Hp, Hone; exact H|].
  split; [|split].
  - intros Htr Hplay. rewrite Hh. apply Hone.
    apply reachable_playing_subscribed; [left; exact Htr | exact Hplay].
  - intros es1 es2 Hes Hno Hthen Hplay.
    rewrite Hh. apply Hone. subst s. rewrite Hes in *.
    apply playing_subscribed_since; try assumption.
    intros Hplay1.
    destruct (reachable_invariant tr v es1) as ([Hh1 _] & _ & _).
    apply (length_olist (subscription tr (run tr (mount v) es1))).
    rewrite <- Hh1. exact (Hthen Hplay1).
  - intros e s'.
    assert (Hcase : (tr = Push /\ e = TransportError)
                    \/ ~ (tr = Push /\ e = TransportError)).
    { destruct tr; [right; intros [H _]; discriminate|].
      destruct e; try (right; intros [_ H]; discriminate).
      left. split; reflexivity. }
    destruct Hcase as [[Htr He]|Hother].
    + subst s'. rewrite He. rewrite Htr in *. cbn [step]. unfold onerror.
      unfold subscription in Hh, Hp, Hone.
      destruct (eventSourceRef s) as [h|] eqn:E.
      * right. right. repeat split.
        -- rewrite Hh. reflexivity.
        -- unfold live_handles in *. cbn. rewrite Hh.
           exact (release_olist (Some h)).
        -- cbn. apply Hp. discriminate.
      * left. split; reflexivity.
    + destruct (step_shape tr s e Hh)
        as [[(Uh & _ & Up & _) | (Rh & Rp & _)] | (Htr & He & _)].
      * left. split; assumption.
      * right. left. fold s' in Rh, Rp. rewrite Rh.
        destruct (length_olist (subscription tr s')) as [Hle' Hone'].
        split; [exact Hle'|].
        split; intros H; [apply Rp, Hone'; exact H | apply Hone', Rp; exact H].
      * exfalso. apply Hother. split; assumption.
Qed.

Lemma subscription_follows_playing_witness :
  let s := run Push (mount (Finite (7 # 10)))
             [AutoplaySettled true; TransportError; TogglePlayPause;
              TogglePlayPause; Message 1000 (Some (track "A" "X"))] in
  isPlaying s = true /\ length (live_handles s) = 1%nat.
Proof.
  cbv zeta. split; [reflexivity|].
  apply (proj1 (proj2 (proj2 (proj2
           (subscription_follows_playing Push (Finite (7 # 10))
              [AutoplaySettled true; TransportError; TogglePlayPause;
               TogglePlayPause; Message 1000 (Some (track "A" "X"))]))))
           [AutoplaySettled true; TransportError; TogglePlayPause]
           [TogglePlayPause; Message 1000 (Some (track "A" "X"))]).
  - reflexivity.
  - cbn. intros [H|[H|[]]]; discriminate.
  - cbn. discriminate.
  - reflexivity.
Defined.

(** ** Deliveries are what the events do *)

(** A message on the open event source is a delivery to the live run. *)
Lemma message_is_delivery (s : state) (now : Z) (data : json) :
  eventSourceRef s <> None ->
  step Push s (Message now (Some data)) = deliver Push s (now, data).
Proof.
  intros Hopen. cbn [step]. unfold onmessage, deliver.
  destruct (eventSourceRef s); [reflexivity | contradiction].
Qed.

(** So is the answer to a request that the live run issued. *)
Lemma own_fetch_is_delivery (s : state) (i : nat) (now : Z) (data : json) :
  nth_error (pending s) i = Some (effect s) ->
  step Pull s (FetchSettled i now (Some data))
  = deliver Pull (with_pending (remove_nth i (pending s)) s) (now, data).
Proof.
  intros Hown. cbn [step]. unfold fetch_settled, deliver.
  rewrite Hown. reflexivity.
Qed.

(** Messages on an event source that is open while playing are deliveries
    one after the other: the source is reopened after every change. *)
Lemma push_deliver_open (s : state) (m : Z * json) :
  isPlaying s = true ->
  eventSourceRef s <> None ->
  isPlaying (deliver Push s m) = true
  /\ eventSourceRef (deliver Push s m) <> None.
Proof.
  intros Hplay Hopen.
  destruct (json_eq_null (snd m)) as [E|Hnn].
  - unfold deliver, receive. rewrite E. cbn. auto.
  - rewrite deliver_detects by exact Hnn.
    destruct (detects (snd m) s); [|auto].
    unfold after_change, setCurrentTrack, run_effect.
    destruct (c_currentTrack (effect s)); cbn; rewrite Hplay; cbn;
      split; congruence.
Qed.

Lemma messages_are_deliveries (ms : list (Z * json)) (s : state) :
  isPlaying s = true ->
  eventSourceRef s <> None ->
  run Push s (map (fun m => Message (fst m) (Some (snd m))) ms)
  = fold_left (deliver Push) ms s.
Proof.
  revert s. induction ms as [|m rest IH]; intros s Hplay Hopen.
  - reflexivity.
  - cbn [map]. unfold run. cbn [fold_left].
    rewrite message_is_delivery by exact Hopen.
    replace (fst m, snd m) with m by (destruct m; reflexivity).
    destruct (push_deliver_open s m Hplay Hopen) as [Hplay' Hopen'].
    apply IH; assumption.
Qed.

(** The history of the push player, in terms of its events: whatever
    happened before, a row of track transitions received while the source
    is open leaves the three most recently superseded tracks. *)
Lemma push_history_after_messages (v : number) (es : list event)
  (ms : list (Z * json)) :
  let s := run Push (mount v) es in
  isPlaying s = true ->
  eventSourceRef s <> None ->
  transitions (lastTrackRef s) ms = true ->
  trackHistory (run Push s (map (fun m => Message (fst m) (Some (snd m))) ms))
  = firstn 3 (rev (superseded (currentTrack s) ms) ++ trackHistory s).
Proof.
  intros s Hplay Hopen Htr.
  rewrite messages_are_deliveries by assumption.
  destruct (reachable_invariant Push v es) as (_ & Hsync & Hlen).
  apply (history_after_transitions Push ms s Hsync Hlen Htr).
Qed.

(** ** Elapsed time *)

Lemma step_playbackTime (tr : transport) (s : state) (e : event) :
  playbackTime (step tr s e)
  = match e with
    | Tick => if isPlaying s then playbackTime s + 1 else playbackTime s
    | Ended | AudioError => 0
    | _ => playbackTime s
    end.
Proof. destruct e; unfold_handlers; by_cases. Qed.

(** C9: pausing a playing player keeps the elapsed time, the current
    track and the history, and suspends the tick; playing again resumes
    counting from the same value; no event but the end of the stream and
    an audio error sets the elapsed time back to 0. *)
Theorem pause_keeps_elapsed_time (tr : transport) (s : state) :
  audioRef s = true ->
  isPlaying s = true ->
  let paused := step tr s TogglePlayPause in
  let resumed := step tr paused TogglePlayPause in
  (isPlaying paused = false
   /\ playbackTime paused = playbackTime s
   /\ currentTrack paused = currentTrack s
   /\ trackHistory paused = trackHistory s
   /\ step tr paused Tick = paused)
  /\ (isPlaying resumed = true
      /\ playbackTime resumed = playbackTime s
      /\ playbackTime (step tr resumed Tick) = playbackTime s + 1)
  /\ (forall s0 e, e <> Ended -> e <> AudioError ->
        playbackTime (step tr s0 e) = playbackTime s0
        \/ (e = Tick /\ isPlaying s0 = true
            /\ playbackTime (step tr s0 e) = playbackTime s0 + 1))
  /\ (forall s0,
        playbackTime (step tr s0 Ended) = 0
        /\ playbackTime (step tr s0 AudioError) = 0).
Proof.
  intros Haudio Hplay paused resumed.
  split; [|split; [|split]].
  - subst paused.
    destruct s as [ip vol mu ct pt th ar ltr esr eff pi hs pe ap inp pp fr co].
    cbn in Haudio, Hplay. subst ip ar.
    destruct tr; cbn; repeat split.
  - subst resumed paused.
    destruct s as [ip vol mu ct pt th ar ltr esr eff pi hs pe ap inp pp fr co].
    cbn in Haudio, Hplay. subst ip ar.
    destruct tr; cbn; repeat split.
  - intros s0 e Hended Herror. rewrite step_playbackTime.
    destruct e; try (left; reflexivity); try contradiction.
    destruct (isPlaying s0); [right; auto | left; reflexivity].
  - intros s0. rewrite !step_playbackTime. split; reflexivity.
Qed.

Lemma pause_keeps_elapsed_time_witness :
  let s := run Push (mount (Finite (7 # 10)))
             (AutoplaySettled true :: repeat Tick 42) in
  let paused := step Push s TogglePlayPause in
  let resumed := step Push paused TogglePlayPause in
  playbackTime s = 42
  /\ (isPlaying paused = false
      /\ playbackTime paused = playbackTime s
      /\ currentTrack paused = currentTrack s
      /\ trackHistory paused = trackHistory s
      /\ step Push paused Tick = paused)
  /\ (isPlaying resumed = true
      /\ playbackTime resumed = playbackTime s
      /\ playbackTime (step Push resumed Tick) = playbackTime s + 1).
Proof.
  cbv zeta. split; [reflexivity|].
  destruct (pause_keeps_elapsed_time Push
              (run Push (mount (Finite (7 # 10)))
                 (AutoplaySettled true :: repeat Tick 42))
              eq_refl eq_refl) as (Hpause & Hresume & _).
  split; [exact Hpause | exact Hresume].
Defined.

(** ** Starting playback *)

(** The autoplay path takes the player to playing only when [play()] has
    resolved, and back to not playing when it was rejected. *)
Lemma autoplay_follows_the_promise (tr : transport) (s : state)
  (resolved : bool) :
  autoplayPending s = true ->
  isPlaying (step tr s (AutoplaySettled resolved)) = resolved.
Proof.
  intros Hpending. cbn [step]. unfold startPlayback.
  rewrite Hpending. unfold setIsPlaying.
  destruct resolved; cbn; destruct (isPlaying s) eqn:E; cbn;
    solve [exact E | apply run_effect_frame].
Qed.

(** C2 fails on the manual path: after a blocked autoplay the user
    presses play; the player is playing at once, before [play()] has
    settled, and stays so when [play()] is rejected, which is only
    logged. *)
Theorem manual_play_rejected_stays_playing (tr : transport) :
  let idle := run tr (mount (Finite (7 # 10))) [AutoplaySettled false] in
  let started := step tr idle TogglePlayPause in
  let rejected := step tr started (PlaySettled false) in
  isPlaying idle = false
  /\ (isPlaying started = true /\ playsPending started = 1%nat)
  /\ (isPlaying rejected = true
      /\ playsPending rejected = 0%nat
      /\ length (live_handles rejected) = 1%nat
      /\ console rejected = ["Autoplay failed:"; "Playback failed:"]
      /\ playbackTime (step tr rejected Tick) = 1).
Proof. destruct tr; cbv zeta; repeat split. Qed.

(** ** Late answers *)

(** Whether the run that issued a request has been cleaned up plays no
    part when the answer is a new track: it becomes the current track, and
    the track that run had captured goes to the history. *)
Lemma answer_taken_in_whoever_asked (s : state) (i : nat) (c : closure)
  (now : Z) (data : json) :
  nth_error (pending s) i = Some c ->
  valid data = true ->
  lastTrackRef s <> Some (trackId data) ->
  let s' := step Pull s (FetchSettled i now (Some data)) in
  currentTrack s' = Some data
  /\ lastTrackRef s' = Some (trackId data)
  /\ trackHistory s'
     = match c_currentTrack c with
       | Some t => firstn 3 (entry_of now t :: trackHistory s)
       | None => trackHistory s
       end.
Proof.
  intros Hc Hv Hnew s'. subst s'. cbn [step]. unfold fetch_settled.
  rewrite Hc, receive_detects by (apply valid_non_null; exact Hv).
  rewrite new_body_detected by assumption.
  rewrite currentTrack_after_change, lastTrackRef_after_change,
    trackHistory_after_change.
  auto.
Qed.

(** C3 fails for the poller: the request of the run holding timer H1 is
    still in flight when the user pauses (the run is cleaned up, H1
    cleared) and plays again (a new run, timer H2).  The late answer is
    taken in by the unmounted run: it replaces the current track and the
    last identity, and archives the track that run had captured. *)
Theorem late_answer_is_taken_in :
  let a := track "A" "X" in
  let b := track "B" "Y" in
  let s0 := run Pull (mount (Finite (7 # 10)))
              [AutoplaySettled true; FetchSettled 0 1000 (Some a)] in
  let s1 := run Pull s0 [TogglePlayPause; TogglePlayPause] in
  let s2 := step Pull s1 (FetchSettled 0 9000 (Some b)) in
  (pollingInterval s0 = Some 4%nat
   /\ pending s0 = [mkClosure 3 true (Some a)])
  /\ (pollingInterval s1 = Some 7%nat
      /\ live_handles s1 = [7%nat]
      /\ nth_error (pending s1) 0 = Some (mkClosure 3 true (Some a))
      /\ isUnmounted (mkClosure 3 true (Some a)) s1 = true
      /\ currentTrack s1 = Some a
      /\ lastTrackRef s1 = Some "A-X"
      /\ trackHistory s1 = [])
  /\ (currentTrack s2 = Some b
      /\ lastTrackRef s2 = Some "B-Y"
      /\ trackHistory s2 = [entry_of 9000 a]).
Proof. cbv zeta. repeat split. Qed.

(** C8 fails for the poller, by the defect of C3: a run of the effect
    that holds track A has two requests in flight; the first answer (B)
    changes the track and the run is cleaned up, yet the second answer (C)
    is handled by that same run, which archives A a second time, while B
    was current.  After five transitions the history is C, B, A, where the
    three most recently superseded tracks are D, C, B; D was never
    archived. *)
Theorem stale_poll_archives_wrong_track :
  let a := track "A" "1" in
  let b := track "B" "2" in
  let c := track "C" "3" in
  let d := track "D" "4" in
  let e := track "E" "5" in
  let s2 := run Pull (mount (Finite (7 # 10)))
              [AutoplaySettled true; FetchSettled 0 1000 (Some a); PollTick;
               FetchSettled 0 2000 (Some b)] in
  let s3 := step Pull s2 (FetchSettled 0 3000 (Some c)) in
  let s5 := run Pull s3
              [FetchSettled 0 4000 (Some d); FetchSettled 0 5000 (Some e)] in
  transitions None [(1000, a); (2000, b); (3000, c); (4000, d); (5000, e)]
  = true
  /\ (currentTrack s2 = Some b
      /\ trackHistory s2 = [entry_of 2000 a]
      /\ nth_error (pending s2) 0 = Some (mkClosure 3 true (Some a))
      /\ isUnmounted (mkClosure 3 true (Some a)) s2 = true)
  /\ (currentTrack s3 = Some c
      /\ trackHistory s3 = [entry_of 3000 a; entry_of 2000 a])
  /\ (currentTrack s5 = Some e
      /\ trackHistory s5
         = [entry_of 5000 c; entry_of 4000 b; entry_of 3000 a])
  /\ firstn 3
       (rev (superseded None
               [(1000, a); (2000, b); (3000, c); (4000, d); (5000, e)]))
     = [entry_of 5000 d; entry_of 4000 c; entry_of 3000 b].
Proof. cbv zeta. repeat split. Qed.

(** * Further properties *)

(** ** Status routes: every outcome *)

Section StatusOutcomes.
Import Status.

Lemma find_source_some (name : string) (items : list json) (x : json) :
  find_source name items = Normal (Some x) ->
  In x items /\ named name x = true.
Proof.
  induction items as [|a rest IH]; cbn [find_source]; [discriminate|].
  destruct (json_eq_null a) as [->|Hnn]; [discriminate|].
  rewrite get_non_null by exact Hnn. cbn [bind]. fold (named name a).
  destruct (named name a) eqn:E.
  - intros H. injection H as <-. split; [left; reflexivity | exact E].
  - intros H. destruct (IH H) as [Hin Hn]. split; [right; exact Hin | exact Hn].
Qed.

Lemma find_source_throws (name : string) (items : list json) (e : string) :
  find_source name items = Throw e -> e = TypeError.
Proof.
  induction items as [|a rest IH]; cbn [find_source]; [discriminate|].
  destruct (json_eq_null a) as [->|Hnn].
  - cbn. congruence.
  - rewrite get_non_null by exact Hnn. cbn [bind].
    destruct (strict_eq_str (prop a "server_name") name);
      [discriminate | exact IH].
Qed.

Lemma named_server_name (name : string) (fs : list (string * json)) :
  named name (JObj fs) = true -> lookup "server_name" fs = Some (JStr name).
Proof.
  unfold named, strict_eq_str. cbn [prop].
  destruct (lookup "server_name" fs) as [[]|]; try discriminate.
  intros H. apply String.eqb_eq in H. congruence.
Qed.

Lemma assign_lookup_same (k : string) (v : json) (fs : list (string * json)) :
  lookup k (assign k v fs) = Some v.
Proof.
  induction fs as [|[k' v'] rest IH]; cbn.
  - rewrite String.eqb_refl. reflexivity.
  - destruct (String.eqb_spec k' k) as [->|Hne]; cbn.
    + rewrite String.eqb_refl. reflexivity.
    + destruct (String.eqb_spec k' k); [contradiction | exact IH].
Qed.

Lemma assign_lookup_other (k k' : string) (v : json)
  (fs : list (string * json)) :
  k' <> k -> lookup k' (assign k v fs) = lookup k' fs.
Proof.
  intros Hne. induction fs as [|[k0 v0] rest IH]; cbn.
  - destruct (String.eqb_spec k k'); [congruence | reflexivity].
  - destruct (String.eqb_spec k0 k) as [->|Hk]; cbn.
    + destruct (String.eqb_spec k k'); [congruence | reflexivity].
    + destruct (String.eqb_spec k0 k'); [reflexivity | exact IH].
Qed.

Lemma assign_keys (k : string) (v : json) (fs : list (string * json)) :
  (lookup k fs <> None -> map fst (assign k v fs) = map fst fs)
  /\ (lookup k fs = None -> assign k v fs = (fs ++ [(k, v)])%list).
Proof.
  induction fs as [|[k' v'] rest [IHsome IHnone]]; cbn.
  - split; [congruence | reflexivity].
  - destruct (String.eqb_spec k' k) as [->|Hne]; cbn.
    + split; [reflexivity | discriminate].
    + split; intros H.
      * f_equal. exact (IHsome H).
      * f_equal. exact (IHnone H).
Qed.

End StatusOutcomes.

(** X1: when the handler answers at all, it answers either 404 (and the
    document has no truthy [icestats.source]) or 200 with an entry of the
    source list that carries the configured name, its [listenurl]
    rewritten: the fallback object is never sent. *)
Theorem GET_answers (name url : string) (doc : json) (r : Status.Response) :
  Status.GET name url doc = Normal r ->
  (r = Status.not_found /\ Status.lacks_source doc)
  \/ exists items fs,
       Status.source_list doc = Some items
       /\ In (JObj fs) items
       /\ lookup "server_name" fs = Some (JStr name)
       /\ r = Status.mkResponse 200 "application/json"
                (Status.Stringify (JObj (assign "listenurl" (JStr url) fs))).
Proof.
  unfold Status.GET.
  destruct (json_eq_null doc) as [->|Hdoc]; [discriminate|].
  rewrite get_non_null by exact Hdoc. cbn [bind].
  destruct (truthy (get_opt (prop doc "icestats") "source")) eqn:Htruthy.
  - destruct (get_opt (prop doc "icestats") "source") as [[]|] eqn:Hsrc;
      try discriminate.
    cbn [Status.find].
    destruct (Status.find_source name items) as [[x|]|e] eqn:Hfind;
      cbn [bind]; try discriminate.
    destruct (find_source_some name items x Hfind) as [Hin Hnamed].
    destruct (named_is_object name x Hnamed) as [fs ->].
    cbn. intros H. injection H as <-.
    right. exists items, fs. repeat split.
    + unfold Status.source_list. rewrite Hsrc. reflexivity.
    + exact Hin.
    + apply named_server_name. exact Hnamed.
  - intros H. injection H as <-. left.
    split; [reflexivity | split; assumption].
Qed.

Lemma GET_answers_witness :
  (Status.mkResponse 404 "application/json" (Status.Text "No data found")
   = Status.not_found
   /\ Status.lacks_source (JObj [("icestats", JNull)]))
  \/ exists items fs,
       Status.source_list (JObj [("icestats", JNull)]) = Some items
       /\ In (JObj fs) items
       /\ lookup "server_name" fs = Some (JStr "Chiptune Radio")
       /\ Status.mkResponse 404 "application/json"
            (Status.Text "No data found")
          = Status.mkResponse 200 "application/json"
              (Status.Stringify
                 (JObj (assign "listenurl"
                          (JStr "https://krelez.ruohki.dev/chip/stream") fs))).
Proof.
  apply (GET_answers "Chiptune Radio" "https://krelez.ruohki.dev/chip/stream"
           (JObj [("icestats", JNull)])).
  reflexivity.
Defined.

(** X2: rewriting a field of the entry sets that field, leaves every
    other field as upstream sent it, and keeps the order of the keys (a
    missing key is appended). *)
Theorem assign_keeps_other_fields (k : string) (v : json)
  (fs : list (string * json)) :
  lookup k (assign k v fs) = Some v
  /\ (forall k', k' <> k -> lookup k' (assign k v fs) = lookup k' fs)
  /\ (lookup k fs <> None -> map fst (assign k v fs) = map fst fs)
  /\ (lookup k fs = None -> assign k v fs = (fs ++ [(k, v)])%list).
Proof.
  split; [apply assign_lookup_same|].
  split; [intros k' H; apply assign_lookup_other; exact H|].
  apply assign_keys.
Qed.

Lemma assign_keeps_other_fields_witness :
  lookup "listeners"
    (assign "listenurl" (JStr "https://krelez.ruohki.dev/vapor/stream")
       [("listenurl", JStr "http://cast:8000/vapor.ogg");
        ("listeners", JNum 3)])
  = Some (JNum 3)
  /\ map fst
       (assign "listenurl" (JStr "https://krelez.ruohki.dev/vapor/stream")
          [("listenurl", JStr "http://cast:8000/vapor.ogg");
           ("listeners", JNum 3)])
     = ["listenurl"; "listeners"].
Proof.
  split.
  - apply (proj1 (proj2 (assign_keeps_other_fields "listenurl"
             (JStr "https://krelez.ruohki.dev/vapor/stream")
             [("listenurl", JStr "http://cast:8000/vapor.ogg");
              ("listeners", JNum 3)])) "listeners").
    discriminate.
  - apply (proj1 (proj2 (proj2 (assign_keeps_other_fields "listenurl"
             (JStr "https://krelez.ruohki.dev/vapor/stream")
             [("listenurl", JStr "http://cast:8000/vapor.ogg");
              ("listeners", JNum 3)])))).
    discriminate.
Defined.

(** X3: the handler throws a TypeError, and sends nothing, when the
    document is [null], when [icestats.source] is truthy but no array (a
    single source object, say), and when the source list has no entry with
    the configured name. *)
Theorem GET_throws (name url : string) (doc : json) :
  doc = JNull
  \/ (exists v,
        get_opt (prop doc "icestats") "source" = Some v
        /\ truthy (Some v) = true
        /\ forall items, v <> JArr items)
  \/ (exists items,
        Status.source_list doc = Some items
        /\ Status.no_entry_named name items = true) ->
  Status.GET name url doc = Throw TypeError.
Proof.
  intros [->|[(v & Hsrc & Htruthy & Hnot)|(items & Hlist & Hnone)]].
  - reflexivity.
  - assert (Hdoc : doc <> JNull) by (intros ->; discriminate).
    unfold Status.GET. rewrite get_non_null by exact Hdoc. cbn [bind].
    rewrite Hsrc, Htruthy.
    destruct v; try reflexivity. exfalso. exact (Hnot items eq_refl).
  - destruct (source_list_truthy doc items Hlist) as [Hdoc Hsrc].
    unfold Status.GET. rewrite get_non_null by exact Hdoc. cbn [bind].
    rewrite Hsrc. cbn [truthy Status.find].
    destruct (Status.find_source name items) as [[x|]|e] eqn:Hfind;
      cbn [bind].
    + exfalso. destruct (find_source_some name items x Hfind) as [Hin Hn].
      unfold Status.no_entry_named in Hnone.
      rewrite forallb_forall in Hnone. specialize (Hnone x Hin).
      rewrite Hn in Hnone. discriminate.
    + reflexivity.
    + rewrite (find_source_throws name items e Hfind). reflexivity.
Qed.

Lemma GET_throws_witness :
  Status.GET_chip
    (JObj [("icestats",
            JObj [("source", JObj [("server_name", JStr "Chiptune Radio")])])])
  = Throw TypeError.
Proof.
  apply (GET_throws "Chiptune Radio" "https://krelez.ruohki.dev/chip/stream").
  right. left.
  exists (JObj [("server_name", JStr "Chiptune Radio")]).
  split; [reflexivity|]. split; [reflexivity|]. discriminate.
Defined.

(** ** Elapsed time on display *)

Lemma clock_below_100_minutes :
  forallb Display.shows_clock (seq 0 (Z.to_nat 6000)) = true.
Proof. vm_compute. reflexivity. Qed.

Lemma formatTime_is_clock (seconds : Z) :
  0 <= seconds < 6000 ->
  Display.formatTime seconds = Display.clock seconds.
Proof.
  intros Hs.
  assert (Hin : In (Z.to_nat seconds) (seq 0 (Z.to_nat 6000)))
    by (apply in_seq; lia).
  pose proof (proj1 (forallb_forall Display.shows_clock
                       (seq 0 (Z.to_nat 6000)))
                clock_below_100_minutes _ Hin) as H.
  unfold Display.shows_clock in H. rewrite Z2Nat.id in H by lia.
  apply String.eqb_eq in H. exact H.
Qed.

(** X4: below 100 minutes [formatTime] gives exactly five characters,
    minutes and seconds on two decimal digits each around a colon. *)
Theorem formatTime_clock (seconds : Z) :
  0 <= seconds < 6000 ->
  Display.formatTime seconds = Display.clock seconds
  /\ String.length (Display.formatTime seconds) = 5%nat.
Proof.
  intros Hs. rewrite (formatTime_is_clock seconds Hs).
  split; reflexivity.
Qed.

Lemma formatTime_clock_witness :
  Display.formatTime 754 = Display.clock 754
  /\ String.length (Display.formatTime 754) = 5%nat.
Proof. apply (formatTime_clock 754). lia. Defined.

Lemma ticks_snoc (es : list event) (e : event) :
  Display.ticks (es ++ [e])
  = Display.ticks es + (if Display.is_tick e then 1 else 0).
Proof.
  unfold Display.ticks. rewrite filter_app, length_app. cbn [filter].
  destruct (Display.is_tick e); cbn [length]; lia.
Qed.

(** X5: in every reachable state the elapsed time is a whole number of
    seconds between 0 and the number of ticks there have been. *)
Theorem elapsed_time_bounded (tr : transport) (v : number)
  (es : list event) :
  0 <= playbackTime (run tr (mount v) es) <= Display.ticks es.
Proof.
  induction es as [|e es IH] using rev_ind.
  - cbn. lia.
  - rewrite run_snoc, ticks_snoc, step_playbackTime.
    destruct e; cbn [Display.is_tick]; try lia.
    destruct (isPlaying (run tr (mount v) es)); lia.
Qed.

Lemma ticks_while_playing (tr : transport) (n : nat) (s : state) :
  isPlaying s = true ->
  isPlaying (run tr s (repeat Tick n)) = true
  /\ playbackTime (run tr s (repeat Tick n)) = playbackTime s + Z.of_nat n.
Proof.
  revert s. induction n as [|n IH]; intros s Hplay.
  - cbn. split; [exact Hplay | lia].
  - cbn [repeat]. unfold run. cbn [fold_left step]. unfold tick.
    rewrite Hplay.
    destruct (IH (with_playbackTime (playbackTime s + 1) s) Hplay)
      as [IHp IHt].
    unfold run in IHp, IHt. rewrite IHp, IHt.
    change (playbackTime (with_playbackTime (playbackTime s + 1) s))
      with (playbackTime s + 1).
    split; [reflexivity | lia].
Qed.

Lemma ticks_while_paused (tr : transport) (n : nat) (s : state) :
  isPlaying s = false -> run tr s (repeat Tick n) = s.
Proof.
  intros Hpaused. induction n as [|n IH]; [reflexivity|].
  cbn [repeat]. unfold run. cbn [fold_left step]. unfold tick.
  rewrite Hpaused. exact IH.
Qed.

(** X6: while the player is playing, [n] ticks move the line under the
    history to the clock of the elapsed time plus [n]; while it is not,
    ticks change nothing and the line reads [Ready to play], whatever the
    elapsed time kept. *)
Theorem playback_line_follows_ticks (tr : transport) (s : state) (n : nat) :
  0 <= playbackTime s ->
  playbackTime s + Z.of_nat n < 6000 ->
  (isPlaying s = true ->
   Display.playback_line (run tr s (repeat Tick n))
   = "Playback time: " ++ Display.clock (playbackTime s + Z.of_nat n))
  /\ (isPlaying s = false ->
      run tr s (repeat Tick n) = s
      /\ Display.playback_line s = "Ready to play").
Proof.
  intros Hpos Hbound. split; intros Hplay.
  - destruct (ticks_while_playing tr n s Hplay) as [Hp Ht].
    unfold Display.playback_line. rewrite Hp, Ht.
    rewrite (formatTime_is_clock _ (conj (Z.add_nonneg_nonneg _ _ Hpos
               (Nat2Z.is_nonneg n)) Hbound)).
    reflexivity.
  - split; [apply ticks_while_paused; exact Hplay|].
    unfold Display.playback_line. rewrite Hplay. reflexivity.
Qed.

Lemma playback_line_follows_ticks_witness :
  Display.playback_line
    (run Pull (run Pull (mount (Finite (7 # 10))) [AutoplaySettled true])
       (repeat Tick 125))
  = "Playback time: 02:05".
Proof.
  apply (playback_line_follows_ticks Pull
           (run Pull (mount (Finite (7 # 10))) [AutoplaySettled true])
           125).
  - cbn. lia.
  - cbn. lia.
  - reflexivity.
Defined.

(** ** Volume and mute *)

Lemma step_volume (tr : transport) (s : state) (e : event) :
  (forall input, e <> VolumeChange input) ->
  volume (step tr s e) = volume s.
Proof.
  intros Hne. destruct e;
    try (exfalso; exact (Hne _ eq_refl)); unfold_handlers; by_cases.
Qed.

Lemma step_isMuted (tr : transport) (s : state) (e : event) :
  e <> ToggleMute -> isMuted (step tr s e) = isMuted s.
Proof.
  intros Hne. destruct e; try contradiction; unfold_handlers; by_cases.
Qed.

(** X7: muting is an output switch, not a volume change: toggling twice
    restores the state, the stored volume is touched by no event but a
    move of the slider and the mute flag by none but the mute button, and
    what the audio element is given is 0 while muted and the stored volume
    otherwise. *)
Theorem mute_keeps_volume (tr : transport) (s : state) :
  step tr (step tr s ToggleMute) ToggleMute = s
  /\ Display.assigned_volume (step tr s ToggleMute)
     = (if isMuted s then volume s else Finite 0)
  /\ (forall e, (forall input, e <> VolumeChange input) ->
        volume (step tr s e) = volume s)
  /\ (forall e, e <> ToggleMute -> isMuted (step tr s e) = isMuted s)
  /\ (forall input, isMuted s = true ->
        Display.assigned_volume (step tr s (VolumeChange input)) = Finite 0).
Proof.
  split; [|split; [|split; [|split]]].
  - destruct s. cbn. unfold toggleMute, with_isMuted. cbn.
    rewrite negb_involutive. reflexivity.
  - unfold Display.assigned_volume. cbn.
    destruct (isMuted s); reflexivity.
  - intros e He. apply step_volume. exact He.
  - intros e He. apply step_isMuted. exact He.
  - intros input Hm. unfold Display.assigned_volume. cbn. rewrite Hm.
    reflexivity.
Qed.

Lemma mute_keeps_volume_witness :
  let s := run Push (mount (Finite (7 # 10)))
             [VolumeChange "0.4"; ToggleMute] in
  volume (step Push s TogglePlayPause) = volume s
  /\ Display.assigned_volume (step Push s (VolumeChange "0.9")) = Finite 0.
Proof.
  cbv zeta. split.
  - apply (proj1 (proj2 (proj2 (mute_keeps_volume Push
             (run Push (mount (Finite (7 # 10)))
                [VolumeChange "0.4"; ToggleMute]))))).
    discriminate.
  - apply (proj2 (proj2 (proj2 (proj2 (mute_keeps_volume Push
             (run Push (mount (Finite (7 # 10)))
                [VolumeChange "0.4"; ToggleMute])))))).
    reflexivity.
Defined.

(** ** Well-formed states *)

Section WellformedFacts.
Import Wellformed.

Lemma valid_fields (d : json) :
  valid d = true ->
  truthy (prop d "artist") = true /\ truthy (prop d "title") = true.
Proof.
  unfold valid, has_artist_and_title.
  destruct d; cbn; try discriminate.
  destruct (truthy (lookup "artist" fields)); cbn; [auto | discriminate].
Qed.

Lemma entry_of_ok (now : Z) (d : json) :
  valid d = true -> entry_ok (entry_of now d).
Proof.
  intros Hv. destruct (valid_fields d Hv) as [Ha Ht].
  split; assumption.
Qed.

Lemma Forall_firstn' {A} (P : A -> Prop) (n : nat) (l : list A) :
  Forall P l -> Forall P (firstn n l).
Proof.
  intros H. rewrite <- (firstn_skipn n l) in H.
  apply Forall_app in H. apply H.
Qed.

Lemma Forall_remove_nth {A} (P : A -> Prop) (i : nat) (l : list A) :
  Forall P l -> Forall P (remove_nth i l).
Proof.
  revert i. induction l as [|x rest IH]; intros i H.
  - destruct i; constructor.
  - inversion H as [|? ? Hx Hrest]; subst.
    destruct i; cbn; [exact Hrest | constructor; auto].
Qed.

Lemma consistent_track_ok (s : state) :
  consistent s -> track_ok (currentTrack s).
Proof.
  unfold consistent, track_ok. destruct (currentTrack s); tauto.
Qed.

Lemma wf_same (s s' : state) :
  same_tracks s s' -> well_formed s -> well_formed s'.
Proof.
  unfold same_tracks, well_formed, consistent.
  intros (H1 & H2 & H3 & H4 & H5). rewrite H1, H2, H3, H4, H5. auto.
Qed.

Lemma wf_run_effect (tr : transport) (s : state) :
  consistent s ->
  Forall (fun c => track_ok (c_currentTrack c)) (pending s) ->
  Forall entry_ok (trackHistory s) ->
  well_formed (run_effect tr s).
Proof.
  intros Hc Hp Hh. pose proof (consistent_track_ok s Hc) as Hok.
  unfold well_formed, consistent, run_effect, fetchAndUpdateTrack in *.
  destruct tr, (isPlaying s) eqn:E; cbn; rewrite ?E; cbn;
    repeat split; try assumption.
  apply Forall_app. split; [assumption|]. constructor; [exact Hok|constructor].
Qed.

Lemma wf_setIsPlaying (tr : transport) (b : bool) (s : state) :
  well_formed s -> well_formed (setIsPlaying tr b s).
Proof.
  intros (Hc & He & Hp & Hh). unfold setIsPlaying.
  destruct (Bool.eqb (isPlaying s) b); [repeat split; assumption|].
  apply wf_run_effect; assumption.
Qed.

Lemma wf_setCurrentTrack (tr : transport) (data : json) (s : state) :
  valid data = true ->
  Forall (fun c => track_ok (c_currentTrack c)) (pending s) ->
  Forall entry_ok (trackHistory s) ->
  lastTrackRef s = Some (trackId data) ->
  well_formed (setCurrentTrack tr data s).
Proof.
  intros Hv Hp Hh Hl. unfold setCurrentTrack.
  apply wf_run_effect; try assumption.
  unfold consistent. cbn. auto.
Qed.

Lemma wf_after_change (tr : transport) (c : closure) (now : Z)
  (data : json) (s : state) :
  well_formed s -> valid data = true -> track_ok (c_currentTrack c) ->
  well_formed (after_change tr c now data s).
Proof.
  intros (Hc & He & Hp & Hh) Hv Hok. unfold after_change.
  apply wf_setCurrentTrack; try assumption.
  - destruct (c_currentTrack c); exact Hp.
  - destruct (c_currentTrack c) as [t|]; cbn [trackHistory with_trackHistory];
      [|exact Hh].
    apply Forall_firstn'. constructor; [|exact Hh].
    apply entry_of_ok. exact Hok.
  - reflexivity.
Qed.

Lemma same_tracks_receive_failed (tr : transport) (c : closure) (now : Z)
  (s : state) :
  same_tracks s (receive tr c now None s)
  /\ same_tracks s (receive tr c now (Some JNull) s).
Proof.
  unfold receive, same_tracks.
  destruct tr; cbn; [destruct (isUnmounted c s)|]; cbn; auto 10.
Qed.

Lemma wf_receive (tr : transport) (c : closure) (now : Z)
  (body : option json) (s : state) :
  well_formed s -> track_ok (c_currentTrack c) ->
  well_formed (receive tr c now body s).
Proof.
  intros Hwf Hok. destruct body as [data|].
  - destruct (json_eq_null data) as [->|Hnn].
    + apply (wf_same s); [apply same_tracks_receive_failed | exact Hwf].
    + rewrite receive_detects by exact Hnn.
      destruct (detects data s) eqn:Hd; [|exact Hwf].
      apply wf_after_change; try assumption.
      apply (detects_valid data s Hd).
  - apply (wf_same s); [apply same_tracks_receive_failed | exact Hwf].
Qed.

Lemma wf_step (tr : transport) (s : state) (e : event) :
  well_formed s -> well_formed (step tr s e).
Proof.
  intros Hwf.
  assert (Hsame : forall s', same_tracks s s' -> well_formed s')
    by (intros s' H; exact (wf_same s s' H Hwf)).
  destruct e; cbn [step].
  - unfold startPlayback. destruct (autoplayPending s); [|exact Hwf].
    destruct resolved; apply wf_setIsPlaying; apply Hsame;
      unfold same_tracks; cbn; auto.
  - destruct (initialPending s); [|exact Hwf].
    destruct body as [data|];
      [|apply Hsame; unfold same_tracks; cbn; auto].
    destruct (json_eq_null data) as [->|Hnn];
      [apply Hsame; unfold same_tracks; cbn; auto|].
    unfold fetchInitialMetadata.
    rewrite has_artist_and_title_non_null by exact Hnn. cbn [bind].
    destruct (valid data) eqn:Hv; cbn [catch_log];
      [|apply Hsame; unfold same_tracks; cbn; auto].
    destruct Hwf as (Hc & He & Hp & Hh).
    unfold setCurrentTrack.
    set (s0 := with_currentTrack (Some data)
                 (with_promises (autoplayPending s) false (playsPending s) s)).
    assert (H0 : well_formed
                   (run_effect tr
                      (with_lastTrackRef (Some (trackId data)) s0))).
    { apply wf_run_effect; try assumption. unfold consistent. cbn. auto. }
    revert H0. unfold well_formed, consistent, run_effect,
      fetchAndUpdateTrack.
    destruct tr, (isPlaying s) eqn:E; cbn; rewrite ?E; cbn; auto.
  - unfold togglePlayPause. destruct (audioRef s); [|exact Hwf].
    apply wf_setIsPlaying.
    destruct (isPlaying s); [exact Hwf|].
    apply Hsame. unfold same_tracks. cbn. auto.
  - unfold play_settled. destruct (playsPending s); [exact Hwf|].
    destruct resolved; apply Hsame; unfold same_tracks; cbn; auto.
  - apply Hsame. unfold same_tracks. cbn. auto.
  - apply Hsame. unfold same_tracks. cbn. auto.
  - unfold tick. destruct (isPlaying s); [|exact Hwf].
    apply Hsame. unfold same_tracks. cbn. auto.
  - destruct tr; [|exact Hwf].
    destruct (pollingInterval s); [|exact Hwf].
    unfold fetchAndUpdateTrack.
    destruct (negb (c_isPlaying (effect s))); [exact Hwf|].
    destruct Hwf as (Hc & He & Hp & Hh).
    repeat split; try assumption. cbn.
    apply Forall_app. split; [exact Hp | constructor; [exact He|constructor]].
  - destruct tr; [|exact Hwf]. unfold fetch_settled.
    destruct (nth_error (pending s) i) as [c|] eqn:Hc; [|exact Hwf].
    destruct Hwf as (Hcs & He & Hp & Hh).
    apply wf_receive.
    + repeat split; try assumption. cbn.
      apply Forall_remove_nth. exact Hp.
    + apply nth_error_In in Hc.
      rewrite Forall_forall in Hp. exact (Hp c Hc).
  - destruct tr; [exact Hwf|]. unfold onmessage.
    destruct (eventSourceRef s); [|exact Hwf].
    apply wf_receive; [exact Hwf | apply Hwf].
  - destruct tr; [exact Hwf|]. unfold onerror.
    destruct (eventSourceRef s); [|exact Hwf].
    apply Hsame. unfold same_tracks. cbn. auto.
  - unfold onEnded.
    apply (wf_same (setIsPlaying tr false s));
      [unfold same_tracks; cbn; auto | apply wf_setIsPlaying; exact Hwf].
  - unfold onError.
    apply (wf_same (setIsPlaying tr false s));
      [unfold same_tracks; cbn; auto | apply wf_setIsPlaying; exact Hwf].
Qed.

Lemma reachable_well_formed (tr : transport) (v : number)
  (es : list event) :
  well_formed (run tr (mount v) es).
Proof.
  induction es as [|e es IH] using rev_ind.
  - repeat split; cbn; auto.
  - rewrite run_snoc. apply wf_step. exact IH.
Qed.

End WellformedFacts.

(** Once there is a current track, there is one after every event. *)
Lemma step_keeps_a_track (tr : transport) (s : state) (e : event) :
  currentTrack s <> None -> currentTrack (step tr s e) <> None.
Proof.
  intros Hsome.
  destruct e; unfold_handlers; destruct tr; split_cases;
    first [ exact Hsome | discriminate ].
Qed.

(** X8: in every reachable state the last identity seen is the identity
    of the current track, which carries a truthy artist and title (there
    is none exactly while there is no current track); and once there is a
    current track, there is one ever after. *)
Theorem current_track_consistent (tr : transport) (v : number)
  (es : list event) :
  let s := run tr (mount v) es in
  (currentTrack s = None -> lastTrackRef s = None)
  /\ (forall d, currentTrack s = Some d ->
        valid d = true /\ lastTrackRef s = Some (trackId d))
  /\ (forall es', currentTrack s <> None ->
        currentTrack (run tr s es') <> None).
Proof.
  intros s.
  destruct (reachable_well_formed tr v es) as (Hc & _). fold s in Hc.
  unfold Wellformed.consistent in Hc.
  split; [|split].
  - intros Hnone. rewrite Hnone in Hc. exact Hc.
  - intros d Hd. rewrite Hd in Hc. exact Hc.
  - intros es' Hsome. induction es' as [|e es' IH] using rev_ind.
    + exact Hsome.
    + rewrite run_snoc. apply step_keeps_a_track. exact IH.
Qed.

Lemma current_track_consistent_witness :
  let s := run Pull (mount (Finite (7 # 10)))
             [InitialMetadata (Some (track "A" "X")); AutoplaySettled true;
              FetchSettled 0 1000 (Some (track "B" "Y"))] in
  valid (track "B" "Y") = true /\ lastTrackRef s = Some "B-Y".
Proof.
  apply (current_track_consistent Pull (Finite (7 # 10))
           [InitialMetadata (Some (track "A" "X")); AutoplaySettled true;
            FetchSettled 0 1000 (Some (track "B" "Y"))]).
  reflexivity.
Defined.

(** X9: in every reachable state, late answers included, the history has
    at most three entries and each of them carries a truthy title and
    artist. *)
Theorem history_entries_valid (tr : transport) (v : number)
  (es : list event) :
  let s := run tr (mount v) es in
  (length (trackHistory s) <= 3)%nat
  /\ (forall e, In e (trackHistory s) ->
        truthy (title e) = true /\ truthy (artist e) = true).
Proof.
  intros s. split.
  - apply reachable_invariant.
  - destruct (reachable_well_formed tr v es) as (_ & _ & _ & Hh).
    fold s in Hh. rewrite Forall_forall in Hh. exact Hh.
Qed.

Lemma history_entries_valid_witness :
  let s := run Pull (mount (Finite (7 # 10)))
             [AutoplaySettled true; FetchSettled 0 1000 (Some (track "A" "X"));
              PollTick; FetchSettled 0 6000 (Some (track "B" "Y"))] in
  truthy (title (entry_of 6000 (track "A" "X"))) = true
  /\ truthy (artist (entry_of 6000 (track "A" "X"))) = true.
Proof.
  apply (history_entries_valid Pull (Finite (7 # 10))
           [AutoplaySettled true; FetchSettled 0 1000 (Some (track "A" "X"));
            PollTick; FetchSettled 0 6000 (Some (track "B" "Y"))]).
  left. reflexivity.
Defined.

(** ** End of the stream and audio errors *)

Lemma stop_playing (tr : transport) (s : state) :
  subscribed tr s ->
  isPlaying (setIsPlaying tr false s) = false
  /\ live_handles (setIsPlaying tr false s) = []
  /\ currentTrack (setIsPlaying tr false s) = currentTrack s
  /\ lastTrackRef (setIsPlaying tr false s) = lastTrackRef s
  /\ trackHistory (setIsPlaying tr false s) = trackHistory s
  /\ volume (setIsPlaying tr false s) = volume s
  /\ console (setIsPlaying tr false s) = console s.
Proof.
  intros [Hh Hp]. unfold setIsPlaying.
  destruct (isPlaying s) eqn:E; cbn [Bool.eqb].
  - unfold run_effect, live_handles, subscription in *.
    destruct tr; cbn; rewrite Hh, release_olist; auto 10.
  - repeat split; try assumption.
    rewrite Hh. destruct (subscription tr s); [|reflexivity].
    assert (Habs : false = true) by (apply Hp; discriminate).
    discriminate.
Qed.

(** X10: the end of the stream and an audio error stop the player in
    every reachable state: it is not playing, the elapsed time is 0, no
    subscription is live and ticks do nothing any more; the current track,
    the last identity, the history and the volume stay; only the error is
    logged. *)
Theorem ended_stops_and_keeps_track (tr : transport) (v : number)
  (es : list event) (e : event) :
  e = Ended \/ e = AudioError ->
  let s := run tr (mount v) es in
  let s' := step tr s e in
  isPlaying s' = false
  /\ playbackTime s' = 0
  /\ live_handles s' = []
  /\ step tr s' Tick = s'
  /\ currentTrack s' = currentTrack s
  /\ lastTrackRef s' = lastTrackRef s
  /\ trackHistory s' = trackHistory s
  /\ volume s' = volume s
  /\ console s'
     = (console s
        ++ match e with
           | AudioError =>
               ["Stream connection failed. Please try again later."]
           | _ => []
           end)%list.
Proof.
  intros He s s'.
  destruct (reachable_invariant tr v es) as (Hsub & _). fold s in Hsub.
  destruct (stop_playing tr s Hsub) as (H1 & H2 & H3 & H4 & H5 & H6 & H7).
  assert (Htick : step tr s' Tick = s').
  { destruct He as [-> | ->]; subst s'; cbn [step];
      unfold tick, onEnded, onError; cbn; rewrite H1; reflexivity. }
  destruct He as [-> | ->]; subst s'; cbn [step] in *;
    unfold onEnded, onError in *; cbn;
    rewrite ?H1, ?H3, ?H4, ?H5, ?H6, ?H7, ?app_nil_r;
    unfold live_handles in *; cbn; rewrite ?H2; auto 10.
Qed.

Lemma ended_stops_and_keeps_track_witness :
  let s := run Push (mount (Finite (7 # 10)))
             [AutoplaySettled true; Message 1000 (Some (track "A" "X"));
              Tick; Tick] in
  isPlaying (step Push s Ended) = false
  /\ playbackTime (step Push s Ended) = 0
  /\ live_handles (step Push s Ended) = []
  /\ step Push (step Push s Ended) Tick = step Push s Ended
  /\ currentTrack (step Push s Ended) = currentTrack s
  /\ lastTrackRef (step Push s Ended) = lastTrackRef s
  /\ trackHistory (step Push s Ended) = trackHistory s
  /\ volume (step Push s Ended) = volume s
  /\ console (step Push s Ended) = (console s ++ [])%list.
Proof.
  apply (ended_stops_and_keeps_track Push (Finite (7 # 10))
           [AutoplaySettled true; Message 1000 (Some (track "A" "X"));
            Tick; Tick] Ended).
  left. reflexivity.
Defined.

(** ** Failures on the metadata path *)

(** X11: a poll that fails, or is answered [null], is swallowed: the
    request leaves the queue, the timer keeps running, track, last
    identity, history and play state stay, and the failure is logged
    unless the run that issued the request has been cleaned up.  A
    message that does not parse, or is [null], is logged and the event
    source stays open. *)
Theorem metadata_failure_swallowed (s : state) (now : Z)
  (body : option json) :
  body = None \/ body = Some JNull ->
  (forall i c, nth_error (pending s) i = Some c ->
     let s' := step Pull s (FetchSettled i now body) in
     pending s' = remove_nth i (pending s)
     /\ pollingInterval s' = pollingInterval s
     /\ live_handles s' = live_handles s
     /\ isPlaying s' = isPlaying s
     /\ currentTrack s' = currentTrack s
     /\ lastTrackRef s' = lastTrackRef s
     /\ trackHistory s' = trackHistory s
     /\ console s'
        = (console s
           ++ if isUnmounted c s then [] else ["Error polling metadata:"])%list)
  /\ (eventSourceRef s <> None ->
      step Push s (Message now body) = log "Error parsing SSE data:" s).
Proof.
  intros Hbody. split.
  - intros i c Hc s'. subst s'. cbn [step]. unfold fetch_settled.
    rewrite Hc. unfold receive, isUnmounted.
    destruct Hbody as [-> | ->]; cbn;
      destruct (Nat.eqb (c_id c) (c_id (effect s))); cbn;
      rewrite ?app_nil_r; auto 10.
  - intros Hopen. cbn [step]. unfold onmessage.
    destruct (eventSourceRef s); [|contradiction].
    destruct Hbody as [-> | ->]; reflexivity.
Qed.

Lemma metadata_failure_swallowed_witness :
  let s := run Pull (mount (Finite (7 # 10)))
             [AutoplaySettled true; FetchSettled 0 1000 (Some (track "A" "X"))]
  in
  let s' := step Pull s (FetchSettled 0 6000 None) in
  pending s' = []
  /\ pollingInterval s' = pollingInterval s
  /\ live_handles s' = live_handles s
  /\ isPlaying s' = isPlaying s
  /\ currentTrack s' = currentTrack s
  /\ lastTrackRef s' = lastTrackRef s
  /\ trackHistory s' = trackHistory s
  /\ console s' = ["Error polling metadata:"].
Proof.
  apply (proj1 (metadata_failure_swallowed
                  (run Pull (mount (Finite (7 # 10)))
                     [AutoplaySettled true;
                      FetchSettled 0 1000 (Some (track "A" "X"))])
                  6000 None (or_introl eq_refl))
           0%nat (mkClosure 3 true (Some (track "A" "X")))).
  reflexivity.
Defined.





(** ** The initial fetch *)

(** X13: the answer to the initial fetch, when it carries a truthy artist
    and title, becomes the current track and the last identity seen
    whatever was there before, and never adds to the history; the same
    track delivered afterwards is no change. *)
Theorem initial_metadata_sets_track (tr : transport) (s : state)
  (data : json) :
  initialPending s = true ->
  valid data = true ->
  let s' := step tr s (InitialMetadata (Some data)) in
  currentTrack s' = Some data
  /\ lastTrackRef s' = Some (trackId data)
  /\ trackHistory s' = trackHistory s
  /\ isPlaying s' = isPlaying s
  /\ (forall now, deliver tr s' (now, data) = s').
Proof.
  intros Hpending Hv s'.
  pose proof (valid_non_null _ Hv) as Hnn.
  assert (Hs' : s' = with_lastTrackRef (Some (trackId data))
                       (setCurrentTrack tr data
                          (with_promises (autoplayPending s) false
                             (playsPending s) s))).
  { subst s'. cbn [step]. rewrite Hpending. unfold fetchInitialMetadata.
    rewrite has_artist_and_title_non_null, Hv by exact Hnn. reflexivity. }
  assert (Hlast : lastTrackRef s' = Some (trackId data))
    by (rewrite Hs'; reflexivity).
  split; [|split; [|split; [|split]]].
  - rewrite Hs'. cbn [currentTrack with_lastTrackRef].
    apply currentTrack_setCurrentTrack.
  - exact Hlast.
  - rewrite Hs'. cbn [trackHistory with_lastTrackRef].
    rewrite trackHistory_setCurrentTrack. reflexivity.
  - rewrite Hs'. cbn [isPlaying with_lastTrackRef]. unfold setCurrentTrack.
    rewrite (proj1 (run_effect_frame tr _)). reflexivity.
  - intros now. rewrite deliver_detects by exact Hnn. cbn [snd].
    unfold detects. rewrite Hlast.
    rewrite (proj2 (differs_false_iff _ _) eq_refl), andb_false_r.
    reflexivity.
Qed.

Lemma initial_metadata_sets_track_witness :
  let s := run Pull (mount (Finite (7 # 10)))
             [AutoplaySettled true; FetchSettled 0 1000 (Some (track "A" "X"))]
  in
  let s' := step Pull s (InitialMetadata (Some (track "B" "Y"))) in
  currentTrack s' = Some (track "B" "Y")
  /\ lastTrackRef s' = Some "B-Y"
  /\ trackHistory s' = []
  /\ isPlaying s' = true
  /\ (forall now, deliver Pull s' (now, track "B" "Y") = s').
Proof.
  apply (initial_metadata_sets_track Pull
           (run Pull (mount (Finite (7 # 10)))
              [AutoplaySettled true;
               FetchSettled 0 1000 (Some (track "A" "X"))])
           (track "B" "Y")).
  - reflexivity.
  - reflexivity.
Defined.

(** ** One poll *)

Lemma nth_error_snoc {A} (l : list A) (x : A) :
  nth_error (l ++ [x]) (length l) = Some x.
Proof. induction l as [|a l IH]; [reflexivity | exact IH]. Qed.

Lemma remove_nth_snoc {A} (l : list A) (x : A) :
  remove_nth (length l) (l ++ [x]) = l.
Proof.
  induction l as [|a l IH]; [reflexivity|].
  cbn. f_equal. exact IH.
Qed.

(** X14: in the pull player a tick of the poll timer followed by the
    answer to the request it issued is one delivery to the live run of the
    effect, whatever else is in flight; without a timer a tick issues
    nothing. *)
Theorem poll_cycle_is_delivery (s : state) (now : Z) (data : json) :
  (pollingInterval s <> None ->
   c_isPlaying (effect s) = true ->
   run Pull s [PollTick; FetchSettled (length (pending s)) now (Some data)]
   = deliver Pull s (now, data))
  /\ (pollingInterval s = None -> step Pull s PollTick = s).
Proof.
  split.
  - intros Htimer Hplaying. unfold run. cbn [fold_left step].
    destruct (pollingInterval s) eqn:E; [|contradiction].
    unfold fetchAndUpdateTrack. rewrite Hplaying. cbn [negb].
    unfold fetch_settled. cbn [pending with_pending with_subscription].
    rewrite nth_error_snoc, remove_nth_snoc.
    unfold deliver. cbn [fst snd]. f_equal.
    destruct s. cbn in *. rewrite E. reflexivity.
  - intros Hnone. cbn [step]. rewrite Hnone. reflexivity.
Qed.

Lemma poll_cycle_is_delivery_witness :
  let s := run Pull (mount (Finite (7 # 10)))
             [AutoplaySettled true; FetchSettled 0 1000 (Some (track "A" "X"))]
  in
  run Pull s [PollTick; FetchSettled 1 6000 (Some (track "B" "Y"))]
  = deliver Pull s (6000, track "B" "Y").
Proof.
  apply (proj1 (poll_cycle_is_delivery
                  (run Pull (mount (Finite (7 # 10)))
                     [AutoplaySettled true;
                      FetchSettled 0 1000 (Some (track "A" "X"))])
                  6000 (track "B" "Y"))).
  - discriminate.
  - reflexivity.
Defined.

(** ** Autoplay *)

(** X15: when the autoplay attempt settles, the player is playing exactly
    if [play()] resolved; a rejection is logged and nothing else is
    touched: track, history, elapsed time and volume stay as they are, and
    the attempt is over. *)
Theorem autoplay_outcome (tr : transport) (s : state) (resolved : bool) :
  autoplayPending s = true ->
  let s' := step tr s (AutoplaySettled resolved) in
  isPlaying s' = resolved
  /\ autoplayPending s' = false
  /\ console s'
     = (console s ++ if resolved then [] else ["Autoplay failed:"])%list
  /\ currentTrack s' = currentTrack s
  /\ trackHistory s' = trackHistory s
  /\ playbackTime s' = playbackTime s
  /\ volume s' = volume s
  /\ step tr s' (AutoplaySettled resolved) = s'.
Proof.
  intros Hpending s'.
  assert (Hp : isPlaying s' = resolved)
    by (apply autoplay_follows_the_promise; exact Hpending).
  assert (Hover : autoplayPending s' = false).
  { subst s'. cbn [step]. unfold startPlayback, setIsPlaying, run_effect,
      fetchAndUpdateTrack. rewrite Hpending.
    destruct resolved, tr, (isPlaying s) eqn:E; cbn; rewrite ?E; cbn;
      reflexivity. }
  split; [exact Hp|]. split; [exact Hover|].
  split; [|split; [|split; [|split; [|split]]]].
  - subst s'. cbn [step]. unfold startPlayback, setIsPlaying, run_effect,
      fetchAndUpdateTrack. rewrite Hpending.
    destruct resolved, tr, (isPlaying s) eqn:E; cbn; rewrite ?E; cbn;
      rewrite ?app_nil_r; reflexivity.
  - subst s'. cbn [step]. unfold startPlayback, setIsPlaying, run_effect,
      fetchAndUpdateTrack. rewrite Hpending.
    destruct resolved, tr, (isPlaying s) eqn:E; cbn; rewrite ?E; cbn;
      reflexivity.
  - subst s'. cbn [step]. unfold startPlayback, setIsPlaying, run_effect,
      fetchAndUpdateTrack. rewrite Hpending.
    destruct resolved, tr, (isPlaying s) eqn:E; cbn; rewrite ?E; cbn;
      reflexivity.
  - subst s'. rewrite step_playbackTime. reflexivity.
  - subst s'. apply step_volume. discriminate.
  - cbn [step]. unfold startPlayback at 1. rewrite Hover. reflexivity.
Qed.

Lemma autoplay_outcome_witness :
  let s' := step Push (mount (Finite (7 # 10))) (AutoplaySettled false) in
  isPlaying s' = false
  /\ autoplayPending s' = false
  /\ console s' = ["Autoplay failed:"]
  /\ currentTrack s' = None
  /\ trackHistory s' = []
  /\ playbackTime s' = 0
  /\ volume s' = Finite (7 # 10)
  /\ step Push s' (AutoplaySettled false) = s'.
Proof.
  apply (autoplay_outcome Push (mount (Finite (7 # 10))) false).
  reflexivity.
Defined.

(** ** The landing page *)

Lemma try_update_text (msg : string) (r : option json) (text : string) :
  fst (Index.try_update msg r text)
  = match r with
    | Some d => if valid d then Index.label d else text
    | None => text
    end.
Proof.
  unfold Index.try_update, valid. destruct r as [d|]; [|reflexivity].
  destruct (has_artist_and_title d) as [[]|]; reflexivity.
Qed.

Lemma try_update_logs (msg : string) (r : option json) (text : string) :
  snd (Index.try_update msg r text)
  = if Index.failed r then [msg] else [].
Proof.
  unfold Index.try_update, Index.failed. destruct r as [d|]; [|reflexivity].
  destruct (json_eq_null d) as [->|Hnn]; [reflexivity|].
  rewrite has_artist_and_title_non_null by exact Hnn.
  destruct (valid d); cbn; destruct d; try reflexivity; contradiction.
Qed.

(** X16: after any number of rounds of [updateTracks], each paragraph of
    the landing page shows the last response of its own channel that
    carried a truthy artist and title (artist first), or what it showed
    before when there was none: failed, [null] and incomplete responses
    leave the text, and the other channel's responses play no part. *)
Theorem page_shows_last_valid (rs : list (option json * option json))
  (p : Index.page) :
  Index.chiptune_track (fold_left Index.updateTracks rs p)
  = Index.shown (Index.chiptune_track p) (map fst rs)
  /\ Index.vapor_track (fold_left Index.updateTracks rs p)
     = Index.shown (Index.vapor_track p) (map snd rs).
Proof.
  revert p. induction rs as [|r rest IH]; intros p.
  - split; reflexivity.
  - cbn [fold_left map]. destruct (IH (Index.updateTracks p r)) as [Hc Hv].
    rewrite Hc, Hv. unfold Index.shown. cbn [Index.last_valid].
    unfold Index.updateTracks.
    cbn [Index.chiptune_track Index.vapor_track].
    rewrite !try_update_text.
    split.
    + destruct (Index.last_valid (map fst rest)); [reflexivity|].
      destruct (fst r) as [d|]; [destruct (valid d)|]; reflexivity.
    + destruct (Index.last_valid (map snd rest)); [reflexivity|].
      destruct (snd r) as [d|]; [destruct (valid d)|]; reflexivity.
Qed.

(** A round of [updateTracks] logs one line for each of its two requests
    that failed or was answered [null], the chiptune line first, and none
    otherwise: an incomplete response is passed over in silence. *)
Lemma updateTracks_logs_failures (p : Index.page)
  (r : option json * option json) :
  Index.console (Index.updateTracks p r)
  = (Index.console p
     ++ (if Index.failed (fst r)
         then ["Error fetching chiptune metadata:"] else [])
     ++ (if Index.failed (snd r)
         then ["Error fetching vapor funk metadata:"] else []))%list.
Proof.
  unfold Index.updateTracks. cbn [Index.console].
  rewrite !try_update_logs. reflexivity.
Qed.

(** ** A track change subscribes anew *)

(** The subscription the effect holds was made before the next id. *)
Lemma step_subscription_fresh (tr : transport) (s : state) (e : event) :
  (forall h, subscription tr s = Some h -> (h < fresh s)%nat) ->
  forall h, subscription tr (step tr s e) = Some h ->
            (h < fresh (step tr s e))%nat.
Proof.
  unfold subscription.
  destruct s as [ip vol mu ct pt th ar ltr esr eff pi hs pe ap inp pp fr co].
  cbn. intros Hold.
  destruct e; unfold_handlers; destruct tr; split_cases;
    intros h' Hh';
    first [ discriminate
          | injection Hh' as <-; lia
          | apply Hold; assumption
          | injection Hh' as <-; apply Nat.lt_lt_succ_r, Nat.lt_lt_succ_r;
            apply Hold; reflexivity
          | apply Nat.lt_lt_succ_r, Nat.lt_lt_succ_r; apply Hold; assumption
          | apply Nat.lt_lt_succ_r; apply Hold; assumption ].
Qed.

Lemma reachable_subscription_fresh (tr : transport) (v : number)
  (es : list event) (h : nat) :
  subscription tr (run tr (mount v) es) = Some h ->
  (h < fresh (run tr (mount v) es))%nat.
Proof.
  revert h. induction es as [|e es IH] using rev_ind; intros h.
  - destruct tr; discriminate.
  - rewrite run_snoc. apply step_subscription_fresh. exact IH.
Qed.

(** X17: in a reachable playing state, a delivery that is detected as a
    track change makes the effect run again: the subscription in use is
    released and a new one, not live before, is the only one alive; the
    new run holds the new track, and in the pull player it has a request
    in flight at once. *)
Theorem track_change_resubscribes (tr : transport) (v : number)
  (es : list event) (m : Z * json) :
  let s := run tr (mount v) es in
  isPlaying s = true ->
  detects (snd m) s = true ->
  let s' := deliver tr s m in
  isPlaying s' = true
  /\ c_currentTrack (effect s') = Some (snd m)
  /\ pending s'
     = match tr with
       | Pull => (pending s ++ [effect s'])%list
       | Push => pending s
       end
  /\ exists h,
       subscription tr s' = Some h
       /\ live_handles s' = [h]
       /\ ~ In h (live_handles s).
Proof.
  intros s Hplay Hd s'.
  pose proof (valid_non_null _ (detects_valid _ _ Hd)) as Hnn.
  destruct (reachable_invariant tr v es) as ([Hh _] & _).
  pose proof (reachable_subscription_fresh tr v es) as Hfresh.
  fold s in Hh, Hfresh.
  subst s'. rewrite deliver_detects, Hd by exact Hnn.
  unfold after_change, setCurrentTrack, run_effect, fetchAndUpdateTrack.
  revert Hplay Hh Hfresh. generalize s. clear.
  intros [ip vol mu ct pt th ar ltr esr eff pi hs pe ap inp pp fr co].
  unfold live_handles, subscription. cbn -[release olist].
  intros -> Hh Hfresh.
  destruct tr, (c_currentTrack eff); cbn -[release olist] in *; subst hs;
    rewrite release_olist;
    (repeat split; try reflexivity);
    eexists; (repeat split; try reflexivity);
    match goal with
    | |- ~ In _ (olist ?x) =>
        destruct x as [h|] eqn:E; cbn; [|tauto];
        intros [Habs|[]]; specialize (Hfresh h eq_refl); lia
    end.
Qed.

Lemma track_change_resubscribes_witness :
  let s := run Push (mount (Finite (7 # 10)))
             [AutoplaySettled true; Message 1000 (Some (track "A" "X"))] in
  let s' := deliver Push s (2000, track "B" "Y") in
  isPlaying s' = true
  /\ c_currentTrack (effect s') = Some (track "B" "Y")
  /\ pending s' = pending s
  /\ exists h,
       subscription Push s' = Some h
       /\ live_handles s' = [h]
       /\ ~ In h (live_handles s).
Proof.
  apply (track_change_resubscribes Push (Finite (7 # 10))
           [AutoplaySettled true; Message 1000 (Some (track "A" "X"))]
           (2000, track "B" "Y")).
  - reflexivity.
  - reflexivity.
Defined.

(** ** The history of the push player *)

(** X18: in the push player, whatever happened before, a row of track
    transitions received as messages while the player is playing on an
    open event source leaves the three most recently superseded tracks in
    the history, most recent first, and the last body as the current
    track; with four transitions or more the history is exactly three of
    them. *)
Theorem push_history_last_three (v : number) (es : list event)
  (ms : list (Z * json)) :
  let s := run Push (mount v) es in
  isPlaying s = true ->
  eventSourceRef s <> None ->
  transitions (lastTrackRef s) ms = true ->
  let s' := run Push s (map (fun m => Message (fst m) (Some (snd m))) ms) in
  trackHistory s'
  = firstn 3 (rev (superseded (currentTrack s) ms) ++ trackHistory s)
  /\ currentTrack s'
     = last (map (fun m => Some (snd m)) ms) (currentTrack s)
  /\ ((4 <= length ms)%nat ->
      trackHistory s' = firstn 3 (rev (superseded (currentTrack s) ms))
      /\ length (trackHistory s') = 3%nat).
Proof.
  intros s Hplay Hopen Htr s'. subst s'.
  rewrite messages_are_deliveries by assumption.
  destruct (reachable_invariant Push v es) as (_ & Hsync & Hlen).
  fold s in Hsync, Hlen.
  destruct (history_after_transitions Push ms s Hsync Hlen Htr) as [Hh Hc].
  split; [exact Hh|]. split; [exact Hc|].
  intros Hfour.
  assert (Hsup : (3 <= length (rev (superseded (currentTrack s) ms)))%nat).
  { rewrite length_rev, length_superseded. destruct (currentTrack s); lia. }
  assert (Hcut : trackHistory (fold_left (deliver Push) ms s)
                 = firstn 3 (rev (superseded (currentTrack s) ms))).
  { rewrite Hh, firstn_app.
    replace (3 - length (rev (superseded (currentTrack s) ms)))%nat
      with 0%nat by lia.
    cbn [firstn]. apply app_nil_r. }
  split; [exact Hcut|].
  rewrite Hcut. apply firstn_length_le. exact Hsup.
Qed.

Lemma push_history_last_three_witness :
  let s := run Push (mount (Finite (7 # 10))) [AutoplaySettled true] in
  let ms := [(1000, track "A" "1"); (2000, track "B" "2");
             (3000, track "C" "3"); (4000, track "D" "4");
             (5000, track "E" "5")] in
  trackHistory
    (run Push s (map (fun m => Message (fst m) (Some (snd m))) ms))
  = [entry_of 5000 (track "D" "4"); entry_of 4000 (track "C" "3");
     entry_of 3000 (track "B" "2")]
  /\ length (trackHistory
               (run Push s
                  (map (fun m => Message (fst m) (Some (snd m))) ms)))
     = 3%nat.
Proof.
  destruct (push_history_last_three (Finite (7 # 10))
              [AutoplaySettled true]
              [(1000, track "A" "1"); (2000, track "B" "2");
               (3000, track "C" "3"); (4000, track "D" "4");
               (5000, track "E" "5")]) as (_ & _ & Hfour).
  - reflexivity.
  - discriminate.
  - reflexivity.
  - apply Hfour. cbn. lia.
Defined.
